(** * probi-oh: the simulation engine of [src/utils/simulation.ts]

    A shallow embedding of [SimulationBranch] and [Simulation] and the
    properties of the search they implement.

    The engine works on JavaScript objects: game states are mutable and are
    reached through references, conditions and cards are compared by object
    identity.  The embedding keeps these as they are:

    - a game state is a cell of a store, addressed by a [Ref]; [deepCopy]
      allocates a new cell;
    - conditions and free cards are elements of types whose Rocq equality is
      object identity (two equal-looking cards are two elements);
    - a branch is a value: [run()] returns the branch with its verdict, and
      the engine changes no branch after it has recorded it;
    - the methods are computations in a small state monad over the store;
      the recursion of the search is bounded by a budget of nested calls.

    The collaborators of the engine ([game-state.ts], [condition.ts],
    [card.ts], [free-card-processor.ts]) are not part of the verified file;
    they are the fields of the class [Collaborators]. *)

From Stdlib Require Import List Arith Bool Lia PeanoNat Permutation.
From Stdlib Require String.
Import ListNotations.

Set Default Proof Using "Type".

(** ** A JavaScript [Map] keyed by object identity

    Entries are kept in insertion order, which is what [Array.from(map)]
    enumerates. *)
Section JsMap.
Variables K V : Type.
Variable same : forall a b : K, {a = b} + {a <> b}.

Definition JsMap := list (K * V).

(** [map.get(k)]: [None] is [undefined]. *)
Fixpoint map_get (m : JsMap) (k : K) : option V :=
  match m with
  | [] => None
  | (k', v) :: rest => if same k' k then Some v else map_get rest k
  end.

(** [map.has(k)] *)
Definition map_has (m : JsMap) (k : K) : bool :=
  match map_get m k with Some _ => true | None => false end.

(** [map.set(k, v)]: an existing key keeps its place, a new one goes last. *)
Fixpoint map_set (m : JsMap) (k : K) (v : V) : JsMap :=
  match m with
  | [] => [(k, v)]
  | (k', v') :: rest =>
      if same k' k then (k', v) :: rest else (k', v') :: map_set rest k v
  end.
End JsMap.

Arguments map_get {K V} same m k.
Arguments map_has {K V} same m k.
Arguments map_set {K V} same m k v.

(** ** Collaborators

    What the engine imports.  A game state is known by its contents; the
    functions below read or transform contents, the objects themselves live
    in the store. *)
Class Collaborators : Type := {
  (** Contents of a [GameState] object. *)
  GameState : Type;
  (** [FreeCard] and [BaseCondition] objects; equality is object identity. *)
  FreeCard : Type;
  BaseCondition : Type;
  card_same : forall a b : FreeCard, {a = b} + {a <> b};
  cond_same : forall a b : BaseCondition, {a = b} + {a <> b};
  (** [gameState.hand], [gameState.deck.deckList], [gameState.freeCardsInHand] *)
  Hand : Type;
  DeckList : Type;
  hand : GameState -> Hand;
  deckList : GameState -> DeckList;
  freeCardsInHand : GameState -> list FreeCard;
  (** Contents of the object that [gameState.deepCopy()] returns. *)
  clone : GameState -> GameState;
  (** [evaluateCondition(condition, hand, deckList)] *)
  evaluateCondition : BaseCondition -> Hand -> DeckList -> bool;
  (** [freeCardIsUsable(gameState, card)] *)
  freeCardIsUsable : GameState -> FreeCard -> bool;
  (** What [processFreeCard(branch, card)] makes of the branch's game state. *)
  applyFreeCard : GameState -> FreeCard -> GameState;
  (** [gameState.serialise()], [GameState.deserialize(s)],
      [serialiseCondition(c)] *)
  SerialisedGameState : Type;
  SerialisedCondition : Type;
  encodeGameState : GameState -> SerialisedGameState;
  decodeGameState : SerialisedGameState -> GameState;
  serialiseCondition : BaseCondition -> SerialisedCondition;
  (** [deserialiseCondition(s)] builds an object; which object it returns
      may depend on how many objects were built before the call. *)
  deserialiseCondition : nat -> SerialisedCondition -> BaseCondition
}.

Section Engine.

Context {C : Collaborators}.

(** *** Store and monad *)

Definition Ref := nat.

(** What the run leaves behind for inspection: the calls of the condition
    evaluator and the entries into [generateFreeCardPermutations].  The
    trace is never read by the engine. *)
Inductive Event : Type :=
| EvEvaluate (condition : BaseCondition) (h : Hand) (d : DeckList)
| EvPermute (gameState : GameState) (condition : BaseCondition)
            (usedCards : list FreeCard).

(** [store]: the game-state objects; [next]: how many objects were built so
    far, the next game state is built in cell [next]; [trace]: see above. *)
Record World : Type := mkWorld {
  store : Ref -> GameState;
  next : nat;
  trace : list Event
}.

(** [None]: the recursion budget of the search ran out. *)
Definition M (A : Type) : Type := World -> option (A * World).

Definition ret {A} (a : A) : M A := fun w => Some (a, w).

Definition bind {A B} (c : M A) (k : A -> M B) : M B :=
  fun w => match c w with
           | Some (a, w') => k a w'
           | None => None
           end.

Definition outOfFuel {A} : M A := fun _ => None.

Notation "x <- c ;; k" := (bind c (fun x => k))
  (at level 61, c at next level, right associativity).
Notation "c ;;; k" := (bind c (fun _ => k))
  (at level 61, right associativity).

Definition read (r : Ref) : M GameState := fun w => Some (store w r, w).

Definition write (r : Ref) (v : GameState) : M unit :=
  fun w => Some (tt, mkWorld (fun r' => if Nat.eqb r' r then v else store w r')
                             (next w) (trace w)).

Definition alloc (v : GameState) : M Ref :=
  fun w => Some (next w,
                 mkWorld (fun r' => if Nat.eqb r' (next w) then v else store w r')
                         (S (next w)) (trace w)).

Definition emit (e : Event) : M unit :=
  fun w => Some (tt, mkWorld (store w) (next w) (trace w ++ [e])).

Fixpoint mapM {A B} (f : A -> M B) (l : list A) : M (list B) :=
  match l with
  | [] => ret []
  | a :: rest => b <- f a ;; bs <- mapM f rest ;; ret (b :: bs)
  end.

(** *** Collaborator methods on objects *)

(** Modelled from the spec: [GameState.deepCopy()] of [game-state.ts], which
    "returns fully isolated clone, no shared mutable sub-objects": a new
    object, whose contents are [clone] of the contents copied. *)
Definition deepCopy (gameState : Ref) : M Ref :=
  v <- read gameState ;; alloc (clone v).

(** Modelled from the spec: [GameState.serialise()] of [game-state.ts]; it
    reads the game state and changes nothing. *)
Definition GameState_serialise (gameState : Ref) : M SerialisedGameState :=
  v <- read gameState ;; ret (encodeGameState v).

(** Modelled from the spec: [GameState.deserialize(s)] of [game-state.ts];
    it builds a game-state object from the decoded contents. *)
Definition GameState_deserialize (s : SerialisedGameState) : M Ref :=
  alloc (decodeGameState s).

(** Modelled from the spec: [deserialiseCondition(s)] of [condition.ts], as
    the construction of an object; conditions are "comparable-by-identity
    values", and the object returned is a matter of the collaborator. *)
Definition newCondition (s : SerialisedCondition) : M BaseCondition :=
  fun w => Some (deserialiseCondition (next w) s,
                 mkWorld (store w) (S (next w)) (trace w)).

(** [usedCards.includes(card)] *)
Definition includes (usedCards : list FreeCard) (card : FreeCard) : bool :=
  existsb (fun u => if card_same u card then true else false) usedCards.

(** *** SimulationBranch *)

Record SimulationBranch : Type := mkBranch {
  b_gameState : Ref;
  b_result : bool;
  b_condition : BaseCondition
}.

Record SerialisedSimulationBranch : Type := mkSerialisedBranch {
  sb_result : bool;
  sb_gameState : SerialisedGameState;
  sb_condition : SerialisedCondition
}.

(** [new SimulationBranch(gameState, condition)] *)
Definition SimulationBranch_new (gameState : Ref) (condition : BaseCondition)
  : M SimulationBranch :=
  own <- deepCopy gameState ;;
  ret (mkBranch own false condition).

(** [branch.run()]; the evaluator is "pure, no side effects", the call is
    put on the trace. *)
Definition SimulationBranch_run (branch : SimulationBranch) : M SimulationBranch :=
  v <- read (b_gameState branch) ;;
  emit (EvEvaluate (b_condition branch) (hand v) (deckList v)) ;;;
  ret (mkBranch (b_gameState branch)
                (evaluateCondition (b_condition branch) (hand v) (deckList v))
                (b_condition branch)).

(** [branch.serialise()] *)
Definition SimulationBranch_serialise (branch : SimulationBranch)
  : M SerialisedSimulationBranch :=
  g <- GameState_serialise (b_gameState branch) ;;
  ret (mkSerialisedBranch (b_result branch) g
                          (serialiseCondition (b_condition branch))).

(** [SimulationBranch.deserialise(serialisedBranch)] *)
Definition SimulationBranch_deserialise (serialisedBranch : SerialisedSimulationBranch)
  : M SimulationBranch :=
  gameState <- GameState_deserialize (sb_gameState serialisedBranch) ;;
  condition <- newCondition (sb_condition serialisedBranch) ;;
  branch <- SimulationBranch_new gameState condition ;;
  ret (mkBranch (b_gameState branch) (sb_result serialisedBranch)
                (b_condition branch)).

(** Modelled from the spec: [processFreeCard(branch, card)] of
    [free-card-processor.ts], which "mutates [branch]'s owned state only". *)
Definition processFreeCard (branch : SimulationBranch) (card : FreeCard) : M unit :=
  v <- read (b_gameState branch) ;;
  write (b_gameState branch) (applyFreeCard v card).

(** *** Simulation *)

Definition Branches := JsMap BaseCondition (list SimulationBranch).

Record Simulation : Type := mkSimulation {
  s_gameState : Ref;
  s_branches : Branches;
  s_conditions : list BaseCondition
}.

Record SerialisedSimulation : Type := mkSerialisedSimulation {
  ss_gameState : SerialisedGameState;
  ss_conditions : list SerialisedCondition;
  ss_branches : list SerialisedSimulationBranch
}.

(** [new Simulation(gameState, conditions)] *)
Definition Simulation_new (gameState : Ref) (conditions : list BaseCondition)
  : M Simulation :=
  own <- deepCopy gameState ;;
  ret (mkSimulation own [] conditions).

(** The bookkeeping shared by [runBranch] and [deserialise]:
<<
    if (!branches.has(c)) branches.set(c, []);
    (branches.get(c) || []).push(branch);
>>
    [push] changes the array that the map holds. *)
Definition record (m : Branches) (branch : SimulationBranch) : Branches :=
  let c := b_condition branch in
  let m1 := if map_has cond_same m c then m else map_set cond_same m c [] in
  match map_get cond_same m1 c with
  | Some branches => map_set cond_same m1 c (branches ++ [branch])
  | None => m1
  end.

(** [runBranch(branch)] *)
Definition runBranch (sim : Simulation) (branch : SimulationBranch) : M Simulation :=
  ran <- SimulationBranch_run branch ;;
  ret (mkSimulation (s_gameState sim) (record (s_branches sim) ran)
                    (s_conditions sim)).

(** [get successfulBranches] *)
Definition successfulBranches (sim : Simulation)
  : list (BaseCondition * option SimulationBranch) :=
  map (fun entry => (fst entry, find (fun branch => b_result branch) (snd entry)))
      (s_branches sim).

(** [get failedBranches] *)
Definition failedBranches (sim : Simulation)
  : list (BaseCondition * option SimulationBranch) :=
  map (fun entry => (fst entry, find (fun branch => negb (b_result branch)) (snd entry)))
      (s_branches sim).

(** [get result]; the [console.log] of the winning branch is left out. *)
Definition result (sim : Simulation) : bool :=
  existsb (fun entry => match snd entry with
                        | Some branch => b_result branch
                        | None => false
                        end)
          (successfulBranches sim).

(** The candidates of one call of [generateFreeCardPermutations]:
<<
      gameState.freeCardsInHand.filter(card =>
          freeCardIsUsable(gameState, card) && !usedCards.includes(card))
>> *)
Definition candidates (v : GameState) (usedCards : list FreeCard) : list FreeCard :=
  filter (fun card => freeCardIsUsable v card && negb (includes usedCards card))
         (freeCardsInHand v).

(** The body of the [for ... of] loop of [generateFreeCardPermutations];
    [recurse] is the recursive call. *)
Fixpoint permutationLoop
    (recurse : Simulation -> Ref -> list FreeCard -> M Simulation)
    (gameState : Ref) (condition : BaseCondition) (usedCards : list FreeCard)
    (freeCards : list FreeCard) (sim : Simulation) : M Simulation :=
  match freeCards with
  | [] => ret sim
  | freeCard :: rest =>
      v <- read gameState ;;
      if negb (freeCardIsUsable v freeCard)
      then permutationLoop recurse gameState condition usedCards rest sim
      else
        newGameState <- deepCopy gameState ;;
        branch <- SimulationBranch_new newGameState condition ;;
        processFreeCard branch freeCard ;;;
        sim1 <- runBranch sim branch ;;
        if result sim1 then ret sim1
        else
          sim2 <- recurse sim1 (b_gameState branch) (usedCards ++ [freeCard]) ;;
          permutationLoop recurse gameState condition usedCards rest sim2
  end.

(** [generateFreeCardPermutations(gameState, condition, usedCards)];
    [fuel] bounds the depth of the recursion. *)
Fixpoint generateFreeCardPermutations (fuel : nat) (sim : Simulation)
    (gameState : Ref) (condition : BaseCondition) (usedCards : list FreeCard)
  : M Simulation :=
  match fuel with
  | O => outOfFuel
  | S fuel' =>
      v <- read gameState ;;
      emit (EvPermute v condition usedCards) ;;;
      let freeCards := candidates v usedCards in
      match freeCards with
      | [] => ret sim
      | _ :: _ =>
          permutationLoop
            (fun s g u => generateFreeCardPermutations fuel' s g condition u)
            gameState condition usedCards freeCards sim
      end
  end.

(** The [forEach] of [iterate]; [return] ends one callback, the next
    condition follows. *)
Fixpoint iterateConditions (fuel : nat) (conditions : list BaseCondition)
    (sim : Simulation) : M Simulation :=
  match conditions with
  | [] => ret sim
  | condition :: rest =>
      branch <- SimulationBranch_new (s_gameState sim) condition ;;
      sim1 <- runBranch sim branch ;;
      if result sim1 then iterateConditions fuel rest sim1
      else
        sim2 <- generateFreeCardPermutations fuel sim1 (s_gameState sim1)
                                             condition [] ;;
        iterateConditions fuel rest sim2
  end.

(** [iterate()] *)
Definition iterate (fuel : nat) (sim : Simulation) : M Simulation :=
  iterateConditions fuel (s_conditions sim) sim.

(** [runSimulation(gameState, conditions)] *)
Definition runSimulation (fuel : nat) (gameState : Ref)
    (conditions : list BaseCondition) : M Simulation :=
  simulation <- Simulation_new gameState conditions ;;
  iterate fuel simulation.

(** The branches of all conditions in one list, as [serialise] flattens them. *)
Definition flatBranches (m : Branches) : list SimulationBranch :=
  concat (map snd m).

(** [simulation.serialise()] *)
Definition serialise (sim : Simulation) : M SerialisedSimulation :=
  g <- GameState_serialise (s_gameState sim) ;;
  nested <- mapM (fun entry => mapM SimulationBranch_serialise (snd entry))
                 (s_branches sim) ;;
  ret (mkSerialisedSimulation g (map serialiseCondition (s_conditions sim))
                              (concat nested)).

(** [Simulation.deserialise(serialisedSimulation)] *)
Definition deserialise (serialisedSimulation : SerialisedSimulation) : M Simulation :=
  gameState <- GameState_deserialize (ss_gameState serialisedSimulation) ;;
  conditions <- mapM newCondition (ss_conditions serialisedSimulation) ;;
  simulation <- Simulation_new gameState conditions ;;
  branches <- mapM SimulationBranch_deserialise (ss_branches serialisedSimulation) ;;
  ret (mkSimulation (s_gameState simulation)
                    (fold_left record branches (s_branches simulation))
                    (s_conditions simulation)).

(** *** Notions used in the statements *)

(** The branches recorded under a condition. *)
Definition branchesOf (m : Branches) (c : BaseCondition) : list SimulationBranch :=
  match map_get cond_same m c with Some bs => bs | None => [] end.

(** What a run of the engine changes.

    From [(sim, w)] to [(sim', w')]: cells are added to the store and the
    cells that existed keep their contents; the simulation keeps its game
    state and its conditions; every condition keeps the branches it had and
    gains branches that own cells allocated in between. *)
Record advances (sim : Simulation) (w : World) (sim' : Simulation) (w' : World)
  : Prop := mkAdvances {
  adv_next : next w <= next w';
  adv_store : forall r, r < next w -> store w' r = store w r;
  adv_gameState : s_gameState sim' = s_gameState sim;
  adv_conditions : s_conditions sim' = s_conditions sim;
  adv_branches : forall c, exists more,
      branchesOf (s_branches sim') c = branchesOf (s_branches sim) c ++ more /\
      forall b, In b more -> next w <= b_gameState b < next w';
  adv_keys : forall c, map_get cond_same (s_branches sim) c <> None ->
                       map_get cond_same (s_branches sim') c <> None;
  adv_result : result sim = true -> result sim' = true
}.

(** [u0] is the [usedCards] of the call at the root or of a call in [evs]. *)
Definition parentKnown (condition : BaseCondition) (root : list FreeCard)
    (evs : list Event) (u0 : list FreeCard) : Prop :=
  u0 = root \/ exists v0, In (EvPermute v0 condition u0) evs.

(** A recursive call: made for the same condition, with arguments that
    satisfy [P], and with the [usedCards] of its caller extended by one card
    that was not in it. *)
Definition callOk (P : GameState -> list FreeCard -> Prop)
    (condition : BaseCondition) (root : list FreeCard) (evs : list Event)
    (e : Event) : Prop :=
  match e with
  | EvEvaluate _ _ _ => True
  | EvPermute v c u =>
      c = condition /\ P v u /\
      exists u0 card,
        u = u0 ++ [card] /\ ~ In card u0 /\ parentKnown condition root evs u0
  end.

(** The arguments of the calls below a call on a hand whose free cards are
    [F0]. *)
Definition within (F0 : list FreeCard) (v : GameState) (u : list FreeCard) : Prop :=
  NoDup u /\ incl u F0 /\ incl (freeCardsInHand v) F0.

(** The events of the search, nested as the calls are.

    [callTrace Q condition depth v usedCards evs]: [evs] are the events of
    one call of [generateFreeCardPermutations], made at recursion depth
    [depth] on the game state [v] with [usedCards]: the call itself, then
    the events of its loop over the candidates.  [loopTrace] follows the
    loop over the cards that are left: a card that is not usable is skipped;
    a usable card has its branch evaluated, after which the loop returns, or
    calls the search one level deeper, on the state of the branch and with
    the [usedCards] of this call extended by the card, and goes on when
    that call has returned.  [Q] holds of every call. *)
Inductive callTrace (Q : nat -> GameState -> list FreeCard -> Prop)
    (condition : BaseCondition)
  : nat -> GameState -> list FreeCard -> list Event -> Prop :=
| call_made depth v usedCards body :
    Q depth v usedCards ->
    loopTrace Q condition depth v usedCards (candidates v usedCards) body ->
    callTrace Q condition depth v usedCards (EvPermute v condition usedCards :: body)
with loopTrace (Q : nat -> GameState -> list FreeCard -> Prop)
    (condition : BaseCondition)
  : nat -> GameState -> list FreeCard -> list FreeCard -> list Event -> Prop :=
| loop_end depth v usedCards :
    loopTrace Q condition depth v usedCards [] []
| loop_skip depth v usedCards card rest evs :
    freeCardIsUsable v card = false ->
    loopTrace Q condition depth v usedCards rest evs ->
    loopTrace Q condition depth v usedCards (card :: rest) evs
| loop_return depth v usedCards card rest :
    freeCardIsUsable v card = true ->
    loopTrace Q condition depth v usedCards (card :: rest)
      [EvEvaluate condition (hand (applyFreeCard (clone (clone v)) card))
                  (deckList (applyFreeCard (clone (clone v)) card))]
| loop_recurse depth v usedCards card rest below evs :
    freeCardIsUsable v card = true ->
    callTrace Q condition (S depth) (applyFreeCard (clone (clone v)) card)
              (usedCards ++ [card]) below ->
    loopTrace Q condition depth v usedCards rest evs ->
    loopTrace Q condition depth v usedCards (card :: rest)
      (EvEvaluate condition (hand (applyFreeCard (clone (clone v)) card))
                  (deckList (applyFreeCard (clone (clone v)) card))
       :: below ++ evs).

Scheme callTrace_loop_ind := Minimality for callTrace Sort Prop
  with loopTrace_call_ind := Minimality for loopTrace Sort Prop.

(** [order] can be followed by the search for [condition] from [v] after
    [usedCards]: every card of it is a candidate when its turn comes, and
    the branch of every card fails the condition, so that the search goes
    on below it. *)
Fixpoint openOrder (condition : BaseCondition) (v : GameState)
    (usedCards order : list FreeCard) : bool :=
  match order with
  | [] => true
  | card :: rest =>
      includes (candidates v usedCards) card
      && negb (evaluateCondition condition
                 (hand (applyFreeCard (clone (clone v)) card))
                 (deckList (applyFreeCard (clone (clone v)) card)))
      && openOrder condition (applyFreeCard (clone (clone v)) card)
                   (usedCards ++ [card]) rest
  end.

Definition isEvaluate (e : Event) : Prop :=
  match e with EvEvaluate _ _ _ => True | EvPermute _ _ _ => False end.

(** A step that only builds objects: cells are added, no cell changes, the
    evaluator is not called. *)
Definition builds (w w' : World) : Prop :=
  next w <= next w' /\
  (forall r, r < next w -> store w' r = store w r) /\
  trace w' = trace w.

(** What [branch.serialise()] returns in the world [w]. *)
Definition serialisedBranch (w : World) (b : SimulationBranch)
  : SerialisedSimulationBranch :=
  mkSerialisedBranch (b_result b) (encodeGameState (store w (b_gameState b)))
                     (serialiseCondition (b_condition b)).

(** The branches that [serialisedBranches.map(SimulationBranch.deserialise)]
    returns when the first of them is decoded with [n] objects built. *)
Fixpoint decodedBranches (n : nat) (l : list SerialisedSimulationBranch)
  : list SimulationBranch :=
  match l with
  | [] => []
  | sb :: rest =>
      mkBranch (S (S n)) (sb_result sb) (deserialiseCondition (S n) (sb_condition sb))
      :: decodedBranches (S (S (S n))) rest
  end.

(** The conditions that [serialisedConditions.map(deserialiseCondition)]
    returns. *)
Fixpoint decodedConditions (n : nat) (l : list SerialisedCondition)
  : list BaseCondition :=
  match l with
  | [] => []
  | s :: rest => deserialiseCondition n s :: decodedConditions (S n) rest
  end.

(** The conditions of [l] come group by group: a condition that is followed
    by another one does not come again. *)
Fixpoint grouped (l : list BaseCondition) : bool :=
  match l with
  | [] => true
  | c :: rest =>
      match rest with
      | [] => true
      | c' :: _ =>
          if cond_same c c' then true
          else negb (existsb (fun x => if cond_same c x then true else false) rest)
      end
      && grouped rest
  end.

(** *** Notions used in the further properties *)

(** The game state after the free cards of [order] were used one after the
    other, each on a copy of a copy as the search makes them. *)
Definition afterOrder (v : GameState) (order : list FreeCard) : GameState :=
  fold_left (fun state card => applyFreeCard (clone (clone state)) card) order v.

(** [order] can be played from [v] after [usedCards]: every card of it is a
    candidate when its turn comes. *)
Fixpoint usableOrder (v : GameState) (usedCards order : list FreeCard) : bool :=
  match order with
  | [] => true
  | card :: rest =>
      includes (candidates v usedCards) card
      && usableOrder (applyFreeCard (clone (clone v)) card) (usedCards ++ [card]) rest
  end.

(** The number of calls of the evaluator on a trace. *)
Definition evaluations (evs : list Event) : nat :=
  length (filter (fun e => match e with
                           | EvEvaluate _ _ _ => true
                           | EvPermute _ _ _ => false
                           end) evs).

(** The calls of the evaluator on a trace, in their order. *)
Definition evaluatorCalls (evs : list Event) : list Event :=
  filter (fun e => match e with
                   | EvEvaluate _ _ _ => true
                   | EvPermute _ _ _ => false
                   end) evs.

(** The baseline branches of [conditions], one for each condition in the
    order of the list, as [iterate] builds and runs them on copies of the
    game state [v] when the first of them is the object [n]. *)
Fixpoint baselineBranches (n : Ref) (v : GameState) (conditions : list BaseCondition)
  : list SimulationBranch :=
  match conditions with
  | [] => []
  | condition :: rest =>
      mkBranch n (evaluateCondition condition (hand (clone v)) (deckList (clone v)))
               condition
      :: baselineBranches (S n) v rest
  end.

(** The calls of the evaluator for these branches. *)
Definition baselineEvaluations (v : GameState) (conditions : list BaseCondition)
  : list Event :=
  map (fun condition => EvEvaluate condition (hand (clone v)) (deckList (clone v)))
      conditions.

(** The verdict of the evaluator on the game state that [b] owns in [w]. *)
Definition verdictOf (w : World) (b : SimulationBranch) : bool :=
  evaluateCondition (b_condition b) (hand (store w (b_gameState b)))
                    (deckList (store w (b_gameState b))).

(** A branch mapping as the engine builds it: no condition has two entries,
    no entry is empty, every branch is filed under its own condition, owns
    an existing game state and holds the evaluator's verdict on it. *)
Definition wellFiled (sim : Simulation) (w : World) : Prop :=
  NoDup (map fst (s_branches sim)) /\
  forall c bs, map_get cond_same (s_branches sim) c = Some bs ->
    bs <> [] /\
    forall b, In b bs ->
      b_condition b = c /\ b_gameState b < next w /\ b_result b = verdictOf w b.

(** The search was called on the game state [v] with the used cards
    [calledWith], and a branch that owns the game state [v] is on record
    under the condition. *)
Definition explored (condition : BaseCondition) (sim' : Simulation) (w' : World)
    (v : GameState) (calledWith : list FreeCard) : Prop :=
  In (EvPermute v condition calledWith) (trace w') /\
  exists b, In b (branchesOf (s_branches sim') condition) /\
            b_gameState b < next w' /\ store w' (b_gameState b) = v.

End Engine.

(** ** A table to play on

    Concrete collaborators: cards with a name and an identity, a game state
    with a hand, a deck and the cards played this turn, conditions that ask
    for a card name in the hand, and two free-card processors.  The engine
    is run on them at the end of the file. *)
Module Duel.

Import String.StringSyntax.
Local Open Scope string_scope.
Local Open Scope list_scope.

Record Card : Type := mkCard {
  card_id : nat;
  card_name : String.string;
  card_free : bool
}.

Record Field : Type := mkField {
  f_hand : list Card;
  f_deck : list Card;
  f_played : list Card
}.

Record Condition : Type := mkCondition {
  cond_id : nat;
  cond_wants : String.string
}.

Definition card_eq_dec (a b : Card) : {a = b} + {a <> b}.
Proof.
  decide equality; [apply Bool.bool_dec|apply String.string_dec|apply Nat.eq_dec].
Defined.

Definition condition_eq_dec (a b : Condition) : {a = b} + {a <> b}.
Proof.
  decide equality; [apply String.string_dec|apply Nat.eq_dec].
Defined.

Definition freeCards (v : Field) : list Card := filter card_free (f_hand v).

(** The condition is met when the hand holds a card of the wanted name. *)
Definition holdsWanted (c : Condition) (h d : list Card) : bool :=
  existsb (fun card => String.eqb (card_name card) (cond_wants c)) h.

(** [gameState.playCard(card)] *)
Definition playCard (v : Field) (card : Card) : Field :=
  mkField (remove card_eq_dec card (f_hand v)) (f_deck v) (f_played v ++ [card]).

(** A free card that is only played. *)
Definition play (v : Field) (card : Card) : Field := playCard v card.

(** A free card that is played and draws the top card of the deck. *)
Definition playAndDraw (v : Field) (card : Card) : Field :=
  let v' := playCard v card in
  match f_deck v' with
  | [] => v'
  | top :: rest => mkField (f_hand v' ++ [top]) rest (f_played v')
  end.

(** The table with a processor plugged in: a deep copy holds the same cards,
    every free card is usable, a game state is its own encoding, a condition
    is encoded by the name it wants and every decoded condition is a new
    object. *)
Definition table (processor : Field -> Card -> Field) : Collaborators := {|
  GameState := Field;
  FreeCard := Card;
  BaseCondition := Condition;
  card_same := card_eq_dec;
  cond_same := condition_eq_dec;
  Hand := list Card;
  DeckList := list Card;
  hand := f_hand;
  deckList := f_deck;
  freeCardsInHand := freeCards;
  clone := fun v => v;
  evaluateCondition := holdsWanted;
  freeCardIsUsable := fun _ _ => true;
  applyFreeCard := processor;
  SerialisedGameState := Field;
  SerialisedCondition := String.string;
  encodeGameState := fun v => v;
  decodeGameState := fun v => v;
  serialiseCondition := cond_wants;
  deserialiseCondition := mkCondition
|}.

Definition sameCondition (a b : Condition) : Prop := cond_wants a = cond_wants b.

(** A world in which the caller holds one game state, in cell 0. *)
Definition world0 (processor : Field -> Card -> Field) (v : Field)
  : @World (table processor) :=
  @mkWorld (table processor)
    (fun r => if Nat.eqb r 0 then v else mkField [] [] []) 1 [].

Definition cardA : Card := mkCard 1 "A" false.
Definition cardB : Card := mkCard 2 "B" false.
Definition free1 : Card := mkCard 3 "Pot" true.
Definition free2 : Card := mkCard 4 "Pot" true.

Definition wantsA : Condition := mkCondition 1 "A".
Definition wantsB : Condition := mkCondition 2 "B".
Definition wantsX : Condition := mkCondition 3 "X".

(** Hands to play. *)
Definition twoPots : Field := mkField [free1; free2] [] [].
Definition potOnDeck : Field := mkField [free1] [free2] [].
Definition cardAndPot : Field := mkField [cardA; free1] [cardB] [].
Definition twoPotsOnDeck : Field := mkField [free1; free2] [cardA; cardB] [].
Definition potOverCards : Field := mkField [free1] [cardA; cardB] [].

(** A simulation that owns the game state in cell 0. *)
Definition simOf (processor : Field -> Card -> Field) (conditions : list Condition)
  : @Simulation (table processor) :=
  @mkSimulation (table processor) 0 [] conditions.

(** A simulation that already holds a branch. *)
Definition simWithBranch : @Simulation (table play) :=
  @mkSimulation (table play) 0
    [(wantsB, [@mkBranch (table play) 0 false wantsB])] [wantsA; wantsB].

(** A simulation with a success and two failures on record. *)
Definition simOnRecord : @Simulation (table play) :=
  @mkSimulation (table play) 0
    [(wantsA, [@mkBranch (table play) 0 true wantsA]);
     (wantsB, [@mkBranch (table play) 0 false wantsB;
               @mkBranch (table play) 0 false wantsB])]
    [wantsA; wantsB].

(** Two branches persisted under conditions of the same content. *)
Definition twoBranchesOneContent : @SerialisedSimulation (table play) :=
  @mkSerialisedSimulation (table play) cardAndPot ["A"]
    [@mkSerialisedBranch (table play) true cardAndPot "A";
     @mkSerialisedBranch (table play) false cardAndPot "A"].

(** The table of cards that are only played, with a decoder that keeps one
    condition object for each name: decoding a name twice returns the same
    object. *)
Definition keyedTable : Collaborators := {|
  GameState := Field;
  FreeCard := Card;
  BaseCondition := Condition;
  card_same := card_eq_dec;
  cond_same := condition_eq_dec;
  Hand := list Card;
  DeckList := list Card;
  hand := f_hand;
  deckList := f_deck;
  freeCardsInHand := freeCards;
  clone := fun v => v;
  evaluateCondition := holdsWanted;
  freeCardIsUsable := fun _ _ => true;
  applyFreeCard := play;
  SerialisedGameState := Field;
  SerialisedCondition := String.string;
  encodeGameState := fun v => v;
  decodeGameState := fun v => v;
  serialiseCondition := cond_wants;
  deserialiseCondition := fun _ s => mkCondition 0 s
|}.

Definition keyedWorld0 (v : Field) : @World keyedTable :=
  @mkWorld keyedTable (fun r => if Nat.eqb r 0 then v else mkField [] [] []) 1 [].

(** A second condition object that asks for a card named X. *)
Definition wantsX' : Condition := mkCondition 9 "X".

(** A success and two failures on record, under conditions of different
    names. *)
Definition keyedOnRecord : @Simulation keyedTable :=
  @mkSimulation keyedTable 0
    [(wantsA, [@mkBranch keyedTable 0 true wantsA]);
     (wantsB, [@mkBranch keyedTable 0 false wantsB;
               @mkBranch keyedTable 0 false wantsB])]
    [wantsA; wantsB].

(** The engine on the table. *)
Definition search (processor : Field -> Card -> Field) :=
  @generateFreeCardPermutations (table processor).

Definition run (processor : Field -> Card -> Field) :=
  @iterate (table processor).

(** The verdicts recorded in a branch mapping. *)
Definition verdicts {processor} (sim : @Simulation (table processor))
  : list (Condition * list bool) :=
  map (fun entry => (fst entry, map b_result (snd entry))) (s_branches sim).


(** A hand without a free card. *)
Definition noPot : Field := mkField [cardA] [cardB] [].

End Duel.

(** ** Properties *)

Section EngineFacts.

Context {C : Collaborators}.

Notation "x <- c ;; k" := (bind c (fun x => k))
  (at level 61, c at next level, right associativity).
Notation "c ;;; k" := (bind c (fun _ => k))
  (at level 61, right associativity).

(** *** The accessors *)

Lemma find_first {A} (f : A -> bool) (l : list A) (x : A) :
  find f l = Some x ->
  exists pre post, l = pre ++ x :: post /\ f x = true /\
                   forall y, In y pre -> f y = false.
Proof.
  induction l as [|a l IH]; simpl; [discriminate|].
  destruct (f a) eqn:Fa.
  - intros [= ->]. exists [], l. simpl. intuition.
  - intros H. destruct (IH H) as (pre & post & -> & Fx & Hpre).
    exists (a :: pre), post. simpl. repeat split; auto.
    intros y [<-|Hy]; auto.
Qed.

Lemma find_absent {A} (f : A -> bool) (l : list A) :
  find f l = None -> forall y, In y l -> f y = false.
Proof. intros H y Hy. exact (find_none f l H y Hy). Qed.

(** A success on record makes [result] true. *)
Lemma result_intro (sim : Simulation) condition branches branch :
  In (condition, branches) (s_branches sim) -> In branch branches ->
  b_result branch = true -> result sim = true.
Proof.
  intros Hin Hb Hres. unfold result, successfulBranches. apply existsb_exists.
  destruct (find (fun b => b_result b) branches) as [b'|] eqn:Hf.
  - exists (condition, Some b'). split.
    + apply in_map_iff. exists (condition, branches). simpl. rewrite Hf.
      split; [reflexivity|exact Hin].
    + simpl. apply find_some in Hf. exact (proj2 Hf).
  - pose proof (find_absent _ _ Hf branch Hb) as Hno. simpl in Hno. congruence.
Qed.

(** A true [result] comes from a success on record. *)
Lemma result_elim (sim : Simulation) :
  result sim = true ->
  exists condition branches branch,
    In (condition, branches) (s_branches sim) /\
    In branch branches /\ b_result branch = true.
Proof.
  unfold result, successfulBranches. rewrite existsb_exists.
  intros ([c o] & Hin & Hres). simpl in Hres.
  apply in_map_iff in Hin. destruct Hin as ([c' bs] & Heq & Hin).
  simpl in Heq. injection Heq as -> <-.
  destruct (find _ bs) as [b|] eqn:Hf; [|discriminate].
  apply find_some in Hf. destruct Hf as [Hb _].
  exists c, bs, b. repeat split; assumption.
Qed.

(** C2. [result] is true exactly when some branch recorded under some
    condition of the branch mapping has [result == true]. *)
Theorem result_iff_some_branch_succeeded (sim : Simulation) :
  result sim = true <->
  exists condition branches branch,
    In (condition, branches) (s_branches sim) /\
    In branch branches /\ b_result branch = true.
Proof.
  split.
  - apply result_elim.
  - intros (c & bs & b & Hin & Hb & Hres). exact (result_intro sim c bs b Hin Hb Hres).
Qed.

(** C6. [failedBranches] has one entry per entry of the branch mapping, in
    the same order and under the same condition, and the entry holds at
    most one branch: the first recorded branch with [result == false], or
    none when every recorded branch of that condition succeeded. *)
Theorem failedBranches_first_failure (sim : Simulation) :
  Forall2
    (fun entry out =>
       fst out = fst entry /\
       match snd out with
       | Some branch =>
           exists earlier later,
             snd entry = earlier ++ branch :: later /\
             b_result branch = false /\
             forall b, In b earlier -> b_result b = true
       | None => forall b, In b (snd entry) -> b_result b = true
       end)
    (s_branches sim) (failedBranches sim).
Proof.
  unfold failedBranches. induction (s_branches sim) as [|[c bs] m IH]; simpl.
  - constructor.
  - constructor; [|exact IH]. simpl. split; [reflexivity|].
    destruct (find _ bs) as [b|] eqn:Hf.
    + destruct (find_first _ _ _ Hf) as (pre & post & -> & Hb & Hpre).
      exists pre, post. repeat split.
      * now apply negb_true_iff in Hb.
      * intros x Hx. specialize (Hpre x Hx). now apply negb_false_iff in Hpre.
    + intros x Hx. pose proof (find_absent _ _ Hf x Hx) as Hno.
      simpl in Hno. now apply negb_false_iff in Hno.
Qed.

(** *** The branch mapping *)

Lemma map_get_set_same (m : Branches) c bs :
  map_get cond_same (map_set cond_same m c bs) c = Some bs.
Proof.
  induction m as [|[k v] m IH]; simpl.
  - destruct (cond_same c c); congruence.
  - destruct (cond_same k c) as [->|Hne]; simpl.
    + destruct (cond_same c c); congruence.
    + destruct (cond_same k c); [contradiction|exact IH].
Qed.

Lemma map_get_set_other (m : Branches) c c' bs :
  c' <> c ->
  map_get cond_same (map_set cond_same m c bs) c' = map_get cond_same m c'.
Proof.
  intros Hne. induction m as [|[k v] m IH]; simpl.
  - destruct (cond_same c c'); congruence.
  - destruct (cond_same k c) as [->|Hkc]; simpl.
    + destruct (cond_same c c'); congruence.
    + destruct (cond_same k c'); [reflexivity|exact IH].
Qed.

Lemma record_get_same (m : Branches) (b : SimulationBranch) :
  map_get cond_same (record m b) (b_condition b)
  = Some (branchesOf m (b_condition b) ++ [b]).
Proof.
  unfold record, branchesOf, map_has.
  destruct (map_get cond_same m (b_condition b)) as [bs|] eqn:Hg.
  - rewrite Hg. apply map_get_set_same.
  - rewrite map_get_set_same. apply map_get_set_same.
Qed.

Lemma record_get_other (m : Branches) (b : SimulationBranch) c :
  c <> b_condition b ->
  map_get cond_same (record m b) c = map_get cond_same m c.
Proof.
  intros Hne. unfold record, map_has.
  destruct (map_get cond_same m (b_condition b)) as [bs|] eqn:Hg.
  - rewrite Hg. now apply map_get_set_other.
  - rewrite map_get_set_same. now rewrite !map_get_set_other.
Qed.

Lemma record_branchesOf (m : Branches) (b : SimulationBranch) c :
  branchesOf (record m b) c
  = branchesOf m c ++ (if cond_same c (b_condition b) then [b] else []).
Proof.
  unfold branchesOf at 1. destruct (cond_same c (b_condition b)) as [->|Hne].
  - now rewrite record_get_same.
  - rewrite record_get_other by assumption. unfold branchesOf.
    now rewrite app_nil_r.
Qed.

Lemma map_get_In (m : Branches) c bs :
  map_get cond_same m c = Some bs -> In (c, bs) m.
Proof.
  induction m as [|[k v] m IH]; simpl; [discriminate|].
  destruct (cond_same k c) as [->|Hne].
  - intros [= ->]. now left.
  - intros H. right. auto.
Qed.

Lemma map_set_In (m : Branches) k v c bs :
  In (c, bs) m ->
  In (c, bs) (map_set cond_same m k v) \/
  (c = k /\ map_get cond_same m k = Some bs).
Proof.
  induction m as [|[k' v'] m IH]; simpl; [tauto|].
  intros [Heq|Hin].
  - injection Heq as -> ->. destruct (cond_same c k) as [->|Hne].
    + right. split; reflexivity.
    + left. now left.
  - destruct (cond_same k' k) as [->|Hne].
    + left. now right.
    + destruct (IH Hin) as [H|H]; [left; now right | right; exact H].
Qed.

Lemma record_In (m : Branches) (b : SimulationBranch) c bs :
  In (c, bs) m -> exists bs', In (c, bs') (record m b) /\ incl bs bs'.
Proof.
  intros Hin. unfold record, map_has.
  destruct (map_get cond_same m (b_condition b)) as [old|] eqn:Hg.
  - rewrite Hg.
    destruct (map_set_In m (b_condition b) (old ++ [b]) c bs Hin) as [H|[-> H]].
    + exists bs. split; [exact H|apply incl_refl].
    + exists (old ++ [b]). split.
      * apply map_get_In, map_get_set_same.
      * assert (old = bs) as -> by congruence. apply incl_appl, incl_refl.
  - rewrite map_get_set_same.
    destruct (map_set_In m (b_condition b) [] c bs Hin) as [H|[-> H]]; [|congruence].
    destruct (map_set_In _ (b_condition b) ([] ++ [b]) c bs H) as [H'|[-> H']].
    + exists bs. split; [exact H'|apply incl_refl].
    + rewrite map_get_set_same in H'. injection H' as <-.
      exists ([] ++ [b]). split.
      * apply map_get_In, map_get_set_same.
      * intros x [].
Qed.

(** Recording a branch never turns a success into a failure. *)
Lemma result_record (sim : Simulation) (b : SimulationBranch) :
  result sim = true ->
  result (mkSimulation (s_gameState sim) (record (s_branches sim) b)
                       (s_conditions sim)) = true.
Proof.
  intros Htrue. destruct (result_elim sim Htrue) as (c & bs & b0 & Hin & Hb0 & Hres).
  destruct (record_In _ b _ _ Hin) as (bs' & Hin' & Hincl).
  apply (result_intro _ c bs' b0); auto.
Qed.

Lemma advances_refl sim w : advances sim w sim w.
Proof.
  constructor; auto. intros c. exists []. rewrite app_nil_r. split; [reflexivity|].
  intros b [].
Qed.

Lemma advances_trans sim1 w1 sim2 w2 sim3 w3 :
  advances sim1 w1 sim2 w2 -> advances sim2 w2 sim3 w3 -> advances sim1 w1 sim3 w3.
Proof.
  intros [N1 S1 G1 C1 B1 K1 R1] [N2 S2 G2 C2 B2 K2 R2]. constructor.
  - lia.
  - intros r Hr. rewrite S2 by lia. now apply S1.
  - congruence.
  - congruence.
  - intros c. destruct (B1 c) as (m1 & E1 & F1). destruct (B2 c) as (m2 & E2 & F2).
    exists (m1 ++ m2). rewrite E2, E1, app_assoc. split; [reflexivity|].
    intros b Hb. apply in_app_or in Hb. destruct Hb as [Hb|Hb].
    + specialize (F1 b Hb). lia.
    + specialize (F2 b Hb). lia.
  - auto.
  - auto.
Qed.

(** The world after [new SimulationBranch(gameState, condition)] and the
    branch it returns. *)
Lemma SimulationBranch_new_eq gameState condition w :
  SimulationBranch_new gameState condition w
  = Some (mkBranch (next w) false condition,
          mkWorld (fun r => if Nat.eqb r (next w) then clone (store w gameState)
                            else store w r)
                  (S (next w)) (trace w)).
Proof. reflexivity. Qed.

(** The world after [runBranch(branch)] and the simulation it leaves. *)
Lemma runBranch_eq sim branch w :
  runBranch sim branch w
  = let v := store w (b_gameState branch) in
    let verdict := evaluateCondition (b_condition branch) (hand v) (deckList v) in
    Some (mkSimulation (s_gameState sim)
            (record (s_branches sim)
                    (mkBranch (b_gameState branch) verdict (b_condition branch)))
            (s_conditions sim),
          mkWorld (store w) (next w)
                  (trace w ++ [EvEvaluate (b_condition branch) (hand v) (deckList v)])).
Proof. reflexivity. Qed.

(** Recording one branch whose cell was allocated since [w]. *)
Lemma advances_record sim w w' b :
  next w <= b_gameState b < next w' ->
  (forall r, r < next w -> store w' r = store w r) ->
  advances sim w
           (mkSimulation (s_gameState sim) (record (s_branches sim) b)
                         (s_conditions sim)) w'.
Proof.
  intros Hb Hs. constructor; simpl; auto; try lia.
  - intros c. rewrite record_branchesOf. eexists. split; [reflexivity|].
    destruct (cond_same c (b_condition b)); intros x [].
    + subst x. exact Hb.
    + contradiction.
  - intros c Hc. destruct (cond_same c (b_condition b)) as [->|Hne].
    + rewrite record_get_same. discriminate.
    + now rewrite record_get_other.
  - apply result_record.
Qed.

Lemma includes_In usedCards card :
  includes usedCards card = true <-> In card usedCards.
Proof.
  unfold includes. rewrite existsb_exists. split.
  - intros (u & Hu & Heq). destruct (card_same u card); [now subst|discriminate].
  - intros H. exists card. split; [exact H|].
    destruct (card_same card card); congruence.
Qed.

Lemma candidates_In v usedCards card :
  In card (candidates v usedCards) <->
  In card (freeCardsInHand v) /\ freeCardIsUsable v card = true /\
  ~ In card usedCards.
Proof.
  unfold candidates. rewrite filter_In, andb_true_iff, negb_true_iff.
  pose proof (includes_In usedCards card) as Hinc.
  destruct (includes usedCards card); intuition congruence.
Qed.

(** One turn of the loop of [generateFreeCardPermutations], from the copy of
    the game state to the recording of the branch: the branch owns the cell
    [S (next w)], which holds the copied state after the free card was
    applied; [k] is the rest of the turn. *)
Lemma loop_body_run {A} (gameState : Ref) condition card sim
    (k : SimulationBranch -> Simulation -> M A) (w : World) :
  let v := applyFreeCard (clone (clone (store w gameState))) card in
  let verdict := evaluateCondition condition (hand v) (deckList v) in
  exists w4,
    (newGameState <- deepCopy gameState ;;
     branch <- SimulationBranch_new newGameState condition ;;
     processFreeCard branch card ;;;
     sim1 <- runBranch sim branch ;;
     k branch sim1) w
    = k (mkBranch (S (next w)) false condition)
        (mkSimulation (s_gameState sim)
           (record (s_branches sim) (mkBranch (S (next w)) verdict condition))
           (s_conditions sim))
        w4 /\
    next w4 = S (S (next w)) /\
    store w4 (S (next w)) = v /\
    (forall r, r < next w -> store w4 r = store w r) /\
    trace w4 = trace w ++ [EvEvaluate condition (hand v) (deckList v)].
Proof.
  intros v verdict. eexists. split.
  - unfold bind, deepCopy, SimulationBranch_new, processFreeCard, runBranch,
      SimulationBranch_run, read, write, alloc, emit, ret, bind. simpl.
    rewrite !Nat.eqb_refl. reflexivity.
  - simpl. rewrite Nat.eqb_refl. repeat split; auto.
    intros r Hr.
    destruct (Nat.eqb_spec r (S (next w))); [lia|].
    destruct (Nat.eqb_spec r (next w)); [lia|reflexivity].
Qed.

(** *** The calls of the search *)

Section Search.

(** A property of the arguments of a call that a recursive call inherits. *)
Variable P : GameState -> list FreeCard -> Prop.
Hypothesis P_step : forall v usedCards card,
  P v usedCards -> In card (candidates v usedCards) ->
  P (applyFreeCard (clone (clone v)) card) (usedCards ++ [card]).

Variable condition : BaseCondition.

Lemma callOk_more root evs evs' e :
  incl evs evs' -> callOk P condition root evs e -> callOk P condition root evs' e.
Proof.
  intros Hincl. destruct e as [|v c u]; simpl; [auto|].
  intros (Hc & HP & u0 & card & Hu & Hnew & [Hroot|(v0 & Hin)]);
    repeat split; auto; exists u0, card; repeat split; auto.
  - now left.
  - right. exists v0. auto.
Qed.

(** The calls below a child become calls below its caller. *)
Lemma callOk_child root card v evs e :
  ~ In card root -> P v (root ++ [card]) ->
  In e (EvPermute v condition (root ++ [card]) :: evs) ->
  Forall (callOk P condition (root ++ [card]) evs) evs ->
  callOk P condition root (EvPermute v condition (root ++ [card]) :: evs) e.
Proof.
  intros Hnew HP [<-|Hin] Hall.
  - simpl. repeat split; auto. exists root, card. repeat split; auto. now left.
  - rewrite Forall_forall in Hall. specialize (Hall e Hin).
    destruct e as [|v' c u]; simpl in *; [auto|].
    destruct Hall as (Hc & HP' & u0 & card' & Hu & Hnew' & [Hroot|(v0 & Hin0)]);
      repeat split; auto; exists u0, card'; repeat split; auto; right.
    + exists v. left. now subst.
    + exists v0. now right.
Qed.

Lemma permutationLoop_spec
    (recurse : Simulation -> Ref -> list FreeCard -> M Simulation)
    (gameState : Ref) (usedCards : list FreeCard) (v0 : GameState) :
  (forall s g u w s' w',
      g < next w -> P (store w g) u -> recurse s g u w = Some (s', w') ->
      advances s w s' w' /\
      exists evs, trace w' = trace w ++ EvPermute (store w g) condition u :: evs /\
                  Forall (callOk P condition u evs) evs) ->
  P v0 usedCards ->
  forall freeCards sim w sim' w',
    gameState < next w -> store w gameState = v0 ->
    Forall (fun card => In card (freeCardsInHand v0) /\ ~ In card usedCards)
           freeCards ->
    permutationLoop recurse gameState condition usedCards freeCards sim w
    = Some (sim', w') ->
    advances sim w sim' w' /\
    exists evs, trace w' = trace w ++ evs /\ Forall (callOk P condition usedCards evs) evs.
Proof using P_step.
  intros Hrec HP. induction freeCards as [|card rest IH];
    intros sim w sim' w' Hgs Hv Hcards Hrun.
  - injection Hrun as <- <-. split; [apply advances_refl|].
    exists []. now rewrite app_nil_r.
  - pose proof (Forall_inv Hcards) as [Hhand Hnew]. simpl in Hhand, Hnew.
    pose proof (Forall_inv_tail Hcards) as Hrest.
    simpl in Hrun. unfold bind at 1, read at 1 in Hrun. rewrite Hv in Hrun.
    destruct (freeCardIsUsable v0 card) eqn:Husable; simpl in Hrun.
    2: { now apply IH. }
    destruct (loop_body_run gameState condition card sim
                (fun branch sim1 =>
                   if result sim1 then ret sim1
                   else sim2 <- recurse sim1 (b_gameState branch) (usedCards ++ [card]) ;;
                        permutationLoop recurse gameState condition usedCards rest sim2)
                w) as (w4 & Heq & Hnext & Hcell & Hframe & Htrace).
    pose proof (eq_trans (eq_sym Heq) Hrun) as Hk. clear Heq Hrun.
    rewrite Hv in Hcell, Hk, Htrace. simpl in Hk.
    set (v := applyFreeCard (clone (clone v0)) card) in *.
    set (ran := mkBranch (S (next w)) _ condition) in *.
    set (sim1 := mkSimulation _ _ _) in *.
    assert (Hadv1 : advances sim w sim1 w4).
    { apply advances_record; [simpl; lia|exact Hframe]. }
    destruct (result sim1) eqn:Hres.
    + injection Hk as <- <-. split; [exact Hadv1|].
      eexists. split; [exact Htrace|]. repeat constructor.
    + unfold bind in Hk.
      destruct (recurse sim1 (S (next w)) (usedCards ++ [card]) w4)
        as [[sim2 w5]|] eqn:Hr; [|discriminate].
      assert (HPv : P v (usedCards ++ [card])).
      { apply P_step; [exact HP|]. apply candidates_In. auto. }
      apply Hrec in Hr; [|lia|now rewrite Hcell].
      destruct Hr as (Hadv2 & evc & Htr2 & Hevc). rewrite Hcell in Htr2.
      apply IH in Hk; [| |
        | exact Hrest].
      2: { pose proof (adv_next _ _ _ _ Hadv2). lia. }
      2: { rewrite (adv_store _ _ _ _ Hadv2) by lia. rewrite Hframe by lia. exact Hv. }
      destruct Hk as (Hadv3 & evr & Htr3 & Hevr).
      split; [eapply advances_trans; [exact Hadv1|];
              eapply advances_trans; eassumption|].
      exists ([EvEvaluate condition (hand v) (deckList v)]
              ++ (EvPermute v condition (usedCards ++ [card]) :: evc) ++ evr).
      split.
      * rewrite Htr3, Htr2, Htrace. rewrite <- !app_assoc. reflexivity.
      * apply Forall_app. split; [repeat constructor|].
        apply Forall_app. split.
        -- apply Forall_forall. intros e He.
           eapply callOk_more; [|eapply callOk_child; eauto].
           apply incl_appr, incl_appl, incl_refl.
        -- eapply Forall_impl; [|exact Hevr]. intros e.
           apply callOk_more. apply incl_appr, incl_appr, incl_refl.
Qed.

Lemma generateFreeCardPermutations_spec (fuel : nat) :
  forall sim gameState usedCards w sim' w',
    gameState < next w -> P (store w gameState) usedCards ->
    generateFreeCardPermutations fuel sim gameState condition usedCards w
    = Some (sim', w') ->
    advances sim w sim' w' /\
    exists evs,
      trace w' = trace w ++ EvPermute (store w gameState) condition usedCards :: evs /\
      Forall (callOk P condition usedCards evs) evs.
Proof using P_step.
  induction fuel as [|fuel IH]; intros sim gameState usedCards w sim' w' Hgs HP Hrun.
  - discriminate.
  - simpl in Hrun. unfold bind at 1, read at 1 in Hrun.
    unfold bind at 1, emit at 1 in Hrun.
    set (w1 := mkWorld _ _ _) in Hrun.
    assert (Hloop :
      permutationLoop
        (fun s g u => generateFreeCardPermutations fuel s g condition u)
        gameState condition usedCards (candidates (store w gameState) usedCards)
        sim w1 = Some (sim', w')).
    { destruct (candidates (store w gameState) usedCards); exact Hrun. }
    clear Hrun.
    apply (permutationLoop_spec _ gameState usedCards (store w gameState))
      in Hloop; auto.
    + destruct Hloop as (Hadv & evs & Htr & Hevs). split.
      * destruct Hadv as [N S0 G Cs B K R]. constructor; auto.
      * exists evs. split; [|exact Hevs]. rewrite Htr. simpl.
        now rewrite <- app_assoc.
    + apply Forall_forall. intros card Hc. apply candidates_In in Hc. tauto.
Qed.


(** Termination: when [P] leaves room for fewer than [bound] used cards at
    any call that still has a candidate, a budget above [bound - |usedCards|]
    is never exhausted. *)
Variable bound : nat.
Hypothesis P_room : forall v usedCards card,
  P v usedCards -> In card (candidates v usedCards) -> length usedCards < bound.

Lemma permutationLoop_returns
    (recurse : Simulation -> Ref -> list FreeCard -> M Simulation)
    (gameState : Ref) (usedCards : list FreeCard) (v0 : GameState) :
  (forall s g u w s' w',
      g < next w -> P (store w g) u -> recurse s g u w = Some (s', w') ->
      advances s w s' w') ->
  (forall s g w card,
      g < next w -> P (store w g) (usedCards ++ [card]) ->
      exists s' w', recurse s g (usedCards ++ [card]) w = Some (s', w')) ->
  P v0 usedCards ->
  forall freeCards sim w,
    gameState < next w -> store w gameState = v0 ->
    Forall (fun card => In card (freeCardsInHand v0) /\ ~ In card usedCards)
           freeCards ->
    exists sim' w',
      permutationLoop recurse gameState condition usedCards freeCards sim w
      = Some (sim', w').
Proof using P_step.
  intros Hadv Hret HP. induction freeCards as [|card rest IH];
    intros sim w Hgs Hv Hcards.
  - simpl. unfold ret. eauto.
  - pose proof (Forall_inv Hcards) as [Hhand Hnew]. simpl in Hhand, Hnew.
    pose proof (Forall_inv_tail Hcards) as Hrest.
    simpl. unfold bind at 1, read at 1. rewrite Hv.
    destruct (freeCardIsUsable v0 card) eqn:Husable; simpl.
    2: { now apply IH. }
    destruct (loop_body_run gameState condition card sim
                (fun branch sim1 =>
                   if result sim1 then ret sim1
                   else sim2 <- recurse sim1 (b_gameState branch) (usedCards ++ [card]) ;;
                        permutationLoop recurse gameState condition usedCards rest sim2)
                w) as (w4 & Heq & Hnext & Hcell & Hframe & Htrace).
    simpl in Heq. rewrite Heq. clear Heq. rewrite Hv in Hcell.
    set (sim1 := mkSimulation _ _ _).
    destruct (result sim1); [unfold ret; eauto|].
    assert (HPv : P (store w4 (S (next w))) (usedCards ++ [card])).
    { rewrite Hcell. apply P_step; [exact HP|]. apply candidates_In. auto. }
    unfold bind.
    destruct (Hret sim1 (S (next w)) w4 card) as (sim2 & w5 & Hr); [lia|exact HPv|].
    rewrite Hr. apply Hadv in Hr; [|lia|exact HPv].
    apply IH; [|
      | exact Hrest].
    + pose proof (adv_next _ _ _ _ Hr). lia.
    + rewrite (adv_store _ _ _ _ Hr) by lia. rewrite Hframe by lia. exact Hv.
Qed.

Lemma generateFreeCardPermutations_returns (fuel : nat) :
  forall sim gameState usedCards w,
    gameState < next w -> P (store w gameState) usedCards ->
    bound - length usedCards < fuel ->
    exists sim' w',
      generateFreeCardPermutations fuel sim gameState condition usedCards w
      = Some (sim', w').
Proof using P_room P_step.
  induction fuel as [|fuel IH]; intros sim gameState usedCards w Hgs HP Hfuel.
  - lia.
  - simpl. unfold bind at 1, read at 1. unfold bind at 1, emit at 1.
    set (w1 := mkWorld _ _ _).
    destruct (candidates (store w gameState) usedCards) as [|c0 cs] eqn:Hcand.
    + unfold ret. eauto.
    + rewrite <- Hcand.
      apply (permutationLoop_returns _ gameState usedCards (store w gameState));
        auto.
      * intros s g u w0 s' w' Hg HPu Hr.
        now apply generateFreeCardPermutations_spec in Hr.
      * intros s g w0 card Hg HPu. apply IH; auto.
        assert (length usedCards < bound).
        { apply (P_room (store w gameState) usedCards c0); auto.
          rewrite Hcand. now left. }
        rewrite length_app. simpl. lia.
      * apply Forall_forall. intros card Hc. apply candidates_In in Hc. tauto.
Qed.

End Search.

Lemma NoDup_snoc (u : list FreeCard) (card : FreeCard) :
  NoDup u -> ~ In card u -> NoDup (u ++ [card]).
Proof.
  intros Hu Hnew. induction Hu as [|x l Hx Hl IH]; simpl.
  - constructor; [intros []|constructor].
  - constructor.
    + intros Hin. apply in_app_or in Hin. destruct Hin as [Hin|[->|[]]].
      * contradiction.
      * apply Hnew. now left.
    + apply IH. intros Hin. apply Hnew. now right.
Qed.

(** C4. Along every path of the recursion the [usedCards] of a call holds no
    free-card instance twice.  The candidates of a call are the free cards
    in hand that are usable and are not, as objects, among [usedCards]:
    nothing else is excluded, so a second instance that only looks like a
    used card is still a candidate. *)
Theorem usedCards_hold_no_instance_twice
    fuel sim gameState condition usedCards w sim' w' :
  gameState < next w -> NoDup usedCards ->
  generateFreeCardPermutations fuel sim gameState condition usedCards w
  = Some (sim', w') ->
  (exists calls,
      trace w' = trace w ++ calls /\
      In (EvPermute (store w gameState) condition usedCards) calls /\
      forall v c u, In (EvPermute v c u) calls -> NoDup u) /\
  (forall v used card,
      In card (candidates v used) <->
      In card (freeCardsInHand v) /\ freeCardIsUsable v card = true /\
      ~ In card used).
Proof.
  intros Hgs Hnd Hrun. split; [|apply candidates_In].
  apply (generateFreeCardPermutations_spec (fun _ u => NoDup u)) in Hrun; auto.
  - destruct Hrun as (_ & evs & Htr & Hevs).
    eexists. split; [exact Htr|]. split; [now left|].
    intros v c u [Heq|Hin].
    + now injection Heq as _ _ <-.
    + rewrite Forall_forall in Hevs. apply (Hevs _ Hin).
  - intros v u card Hu Hc. apply candidates_In in Hc.
    apply NoDup_snoc; tauto.
Qed.

(** *** Depth of the recursion *)

Section Depth.

(** Using a free card brings no free-card instance into the hand that was
    not there before: the copies keep the instances and the processor draws
    no free card. *)
Hypothesis no_new_free_card : forall v card,
  In card (freeCardsInHand v) -> freeCardIsUsable v card = true ->
  incl (freeCardsInHand (applyFreeCard (clone (clone v)) card))
       (freeCardsInHand v).

Lemma within_step F0 v u card :
  within F0 v u -> In card (candidates v u) ->
  within F0 (applyFreeCard (clone (clone v)) card) (u ++ [card]).
Proof using no_new_free_card.
  intros (Hnd & Hu & Hv) Hc. apply candidates_In in Hc.
  destruct Hc as (Hhand & Husable & Hnew). repeat split.
  - now apply NoDup_snoc.
  - apply incl_app; [exact Hu|]. intros x [<-|[]]. auto.
  - eapply incl_tran; [apply no_new_free_card; assumption|exact Hv].
Qed.

Lemma within_length F0 v u : within F0 v u -> length u <= length F0.
Proof. intros (Hnd & Hu & _). now apply NoDup_incl_length. Qed.

Lemma within_room F0 v u card :
  within F0 v u -> In card (candidates v u) -> length u < length F0.
Proof using no_new_free_card.
  intros Hw Hc. pose proof (within_length _ _ _ (within_step _ _ _ _ Hw Hc)) as H.
  rewrite length_app in H. simpl in H. lia.
Qed.

End Depth.

(** *** The nesting of the calls *)

(** The search goes on below a branch only when the branch has failed. *)
Lemma result_false_record (sim : Simulation) (b : SimulationBranch) :
  result (mkSimulation (s_gameState sim) (record (s_branches sim) b)
                       (s_conditions sim)) = false ->
  b_result b = false.
Proof.
  intros H. destruct (b_result b) eqn:Hb; [|reflexivity].
  rewrite <- H. symmetry.
  apply (result_intro _ (b_condition b)
           (branchesOf (s_branches sim) (b_condition b) ++ [b]) b).
  - apply map_get_In. simpl. apply record_get_same.
  - apply in_or_app. right. now left.
  - exact Hb.
Qed.

Section Nesting.

Variable condition : BaseCondition.

(** [P] is inherited by a recursive call, which is made below a branch that
    failed; [Q] is what it gives at the depth of a call, which is the number
    of its used cards. *)
Variable P : GameState -> list FreeCard -> Prop.
Variable Q : nat -> GameState -> list FreeCard -> Prop.
Hypothesis P_step : forall v usedCards card,
  P v usedCards -> In card (candidates v usedCards) ->
  evaluateCondition condition (hand (applyFreeCard (clone (clone v)) card))
                    (deckList (applyFreeCard (clone (clone v)) card)) = false ->
  P (applyFreeCard (clone (clone v)) card) (usedCards ++ [card]).
Hypothesis P_Q : forall v usedCards, P v usedCards -> Q (length usedCards) v usedCards.

Lemma permutationLoop_nested
    (recurse : Simulation -> Ref -> list FreeCard -> M Simulation)
    (gameState : Ref) (usedCards : list FreeCard) (v0 : GameState) :
  (forall s g u w s' w',
      g < next w -> P (store w g) u -> recurse s g u w = Some (s', w') ->
      advances s w s' w' /\
      exists evs, trace w' = trace w ++ evs /\
                  callTrace Q condition (length u) (store w g) u evs) ->
  P v0 usedCards ->
  forall freeCards sim w sim' w',
    gameState < next w -> store w gameState = v0 ->
    Forall (fun card => In card (freeCardsInHand v0) /\ ~ In card usedCards)
           freeCards ->
    permutationLoop recurse gameState condition usedCards freeCards sim w
    = Some (sim', w') ->
    advances sim w sim' w' /\
    exists evs, trace w' = trace w ++ evs /\
                loopTrace Q condition (length usedCards) v0 usedCards freeCards evs.
Proof using P_step.
  intros Hrec HP. induction freeCards as [|card rest IH];
    intros sim w sim' w' Hgs Hv Hcards Hrun.
  - injection Hrun as <- <-. split; [apply advances_refl|].
    exists []. rewrite app_nil_r. split; [reflexivity|constructor].
  - pose proof (Forall_inv Hcards) as [Hhand Hnew]. simpl in Hhand, Hnew.
    pose proof (Forall_inv_tail Hcards) as Hrest.
    simpl in Hrun. unfold bind at 1, read at 1 in Hrun. rewrite Hv in Hrun.
    destruct (freeCardIsUsable v0 card) eqn:Husable; simpl in Hrun.
    2: { destruct (IH _ _ _ _ Hgs Hv Hrest Hrun) as (Hadv & evs & Htr & Hloop).
         split; [exact Hadv|]. exists evs. split; [exact Htr|].
         now apply loop_skip. }
    destruct (loop_body_run gameState condition card sim
                (fun branch sim1 =>
                   if result sim1 then ret sim1
                   else sim2 <- recurse sim1 (b_gameState branch) (usedCards ++ [card]) ;;
                        permutationLoop recurse gameState condition usedCards rest sim2)
                w) as (w4 & Heq & Hnext & Hcell & Hframe & Htrace).
    pose proof (eq_trans (eq_sym Heq) Hrun) as Hk. clear Heq Hrun.
    rewrite Hv in Hcell, Hk, Htrace. simpl in Hk.
    set (v := applyFreeCard (clone (clone v0)) card) in *.
    set (ran := mkBranch (S (next w)) _ condition) in *.
    set (sim1 := mkSimulation _ _ _) in *.
    assert (Hadv1 : advances sim w sim1 w4).
    { apply advances_record; [simpl; lia|exact Hframe]. }
    destruct (result sim1) eqn:Hres.
    + injection Hk as <- <-. split; [exact Hadv1|].
      eexists. split; [exact Htrace|]. now apply loop_return.
    + unfold bind in Hk.
      destruct (recurse sim1 (S (next w)) (usedCards ++ [card]) w4)
        as [[sim2 w5]|] eqn:Hr; [|discriminate].
      pose proof (result_false_record sim ran Hres) as Hfail. simpl in Hfail.
      assert (HPv : P v (usedCards ++ [card])).
      { apply P_step; [exact HP| |exact Hfail]. apply candidates_In. auto. }
      apply Hrec in Hr; [|lia|now rewrite Hcell].
      destruct Hr as (Hadv2 & evc & Htr2 & Hevc). rewrite Hcell in Hevc.
      rewrite length_app, Nat.add_1_r in Hevc.
      apply IH in Hk; [| |
        | exact Hrest].
      2: { pose proof (adv_next _ _ _ _ Hadv2). lia. }
      2: { rewrite (adv_store _ _ _ _ Hadv2) by lia. rewrite Hframe by lia. exact Hv. }
      destruct Hk as (Hadv3 & evr & Htr3 & Hevr).
      split; [eapply advances_trans; [exact Hadv1|];
              eapply advances_trans; eassumption|].
      exists (EvEvaluate condition (hand v) (deckList v) :: evc ++ evr).
      split.
      * rewrite Htr3, Htr2, Htrace. rewrite <- !app_assoc. reflexivity.
      * now apply loop_recurse.
Qed.

Lemma generateFreeCardPermutations_nested (fuel : nat) :
  forall sim gameState usedCards w sim' w',
    gameState < next w -> P (store w gameState) usedCards ->
    generateFreeCardPermutations fuel sim gameState condition usedCards w
    = Some (sim', w') ->
    advances sim w sim' w' /\
    exists evs,
      trace w' = trace w ++ evs /\
      callTrace Q condition (length usedCards) (store w gameState) usedCards evs.
Proof using P_step P_Q.
  induction fuel as [|fuel IH]; intros sim gameState usedCards w sim' w' Hgs HP Hrun.
  - discriminate.
  - simpl in Hrun. unfold bind at 1, read at 1 in Hrun.
    unfold bind at 1, emit at 1 in Hrun.
    set (w1 := mkWorld _ _ _) in Hrun.
    assert (Hloop :
      permutationLoop
        (fun s g u => generateFreeCardPermutations fuel s g condition u)
        gameState condition usedCards (candidates (store w gameState) usedCards)
        sim w1 = Some (sim', w')).
    { destruct (candidates (store w gameState) usedCards); exact Hrun. }
    clear Hrun.
    apply (permutationLoop_nested _ gameState usedCards (store w gameState))
      in Hloop; auto.
    + destruct Hloop as (Hadv & evs & Htr & Hevs). split.
      * destruct Hadv as [N S0 G Cs B K R]. constructor; auto.
      * exists (EvPermute (store w gameState) condition usedCards :: evs). split.
        -- rewrite Htr. simpl. now rewrite <- app_assoc.
        -- constructor; [now apply P_Q|exact Hevs].
    + apply Forall_forall. intros card Hc. apply candidates_In in Hc. tauto.
Qed.

(** Termination: when [P] leaves room for fewer than [bound] used cards at
    any call that goes on below a branch, a budget above
    [bound - |usedCards|] is never exhausted. *)
Variable bound : nat.
Hypothesis P_room : forall v usedCards card,
  P v usedCards -> In card (candidates v usedCards) ->
  evaluateCondition condition (hand (applyFreeCard (clone (clone v)) card))
                    (deckList (applyFreeCard (clone (clone v)) card)) = false ->
  length usedCards < bound.

Lemma permutationLoop_halts
    (recurse : Simulation -> Ref -> list FreeCard -> M Simulation)
    (gameState : Ref) (usedCards : list FreeCard) (v0 : GameState) :
  (forall s g u w s' w',
      g < next w -> recurse s g u w = Some (s', w') -> advances s w s' w') ->
  (forall s g w card,
      g < next w -> P (store w g) (usedCards ++ [card]) ->
      In card (candidates v0 usedCards) ->
      evaluateCondition condition (hand (applyFreeCard (clone (clone v0)) card))
                        (deckList (applyFreeCard (clone (clone v0)) card)) = false ->
      exists s' w', recurse s g (usedCards ++ [card]) w = Some (s', w')) ->
  P v0 usedCards ->
  forall freeCards sim w,
    gameState < next w -> store w gameState = v0 ->
    Forall (fun card => In card (freeCardsInHand v0) /\ ~ In card usedCards)
           freeCards ->
    exists sim' w',
      permutationLoop recurse gameState condition usedCards freeCards sim w
      = Some (sim', w').
Proof using P_step.
  intros Hadv Hret HP. induction freeCards as [|card rest IH];
    intros sim w Hgs Hv Hcards.
  - simpl. unfold ret. eauto.
  - pose proof (Forall_inv Hcards) as [Hhand Hnew]. simpl in Hhand, Hnew.
    pose proof (Forall_inv_tail Hcards) as Hrest.
    simpl. unfold bind at 1, read at 1. rewrite Hv.
    destruct (freeCardIsUsable v0 card) eqn:Husable; simpl.
    2: { now apply IH. }
    destruct (loop_body_run gameState condition card sim
                (fun branch sim1 =>
                   if result sim1 then ret sim1
                   else sim2 <- recurse sim1 (b_gameState branch) (usedCards ++ [card]) ;;
                        permutationLoop recurse gameState condition usedCards rest sim2)
                w) as (w4 & Heq & Hnext & Hcell & Hframe & Htrace).
    simpl in Heq. rewrite Heq. clear Heq. rewrite Hv in Hcell.
    set (ran := mkBranch (S (next w)) _ condition).
    set (sim1 := mkSimulation _ _ _).
    destruct (result sim1) eqn:Hres; [unfold ret; eauto|].
    pose proof (result_false_record sim ran Hres) as Hfail. simpl in Hfail.
    rewrite Hv in Hfail.
    assert (Hc : In card (candidates v0 usedCards)) by (apply candidates_In; auto).
    assert (HPv : P (store w4 (S (next w))) (usedCards ++ [card])).
    { rewrite Hcell. now apply P_step. }
    unfold bind.
    destruct (Hret sim1 (S (next w)) w4 card) as (sim2 & w5 & Hr);
      [lia|exact HPv|exact Hc|exact Hfail|].
    rewrite Hr. apply Hadv in Hr; [|lia].
    apply IH; [|
      | exact Hrest].
    + pose proof (adv_next _ _ _ _ Hr). lia.
    + rewrite (adv_store _ _ _ _ Hr) by lia. rewrite Hframe by lia. exact Hv.
Qed.

Lemma generateFreeCardPermutations_halts (fuel : nat) :
  forall sim gameState usedCards w,
    gameState < next w -> P (store w gameState) usedCards ->
    bound - length usedCards < fuel ->
    exists sim' w',
      generateFreeCardPermutations fuel sim gameState condition usedCards w
      = Some (sim', w').
Proof using P_room P_step.
  induction fuel as [|fuel IH]; intros sim gameState usedCards w Hgs HP Hfuel.
  - lia.
  - simpl. unfold bind at 1, read at 1. unfold bind at 1, emit at 1.
    set (w1 := mkWorld _ _ _).
    destruct (candidates (store w gameState) usedCards) as [|c0 cs] eqn:Hcand.
    + unfold ret. eauto.
    + rewrite <- Hcand.
      apply (permutationLoop_halts _ gameState usedCards (store w gameState));
        auto.
      * intros s g u w0 s' w' Hg Hr.
        apply (generateFreeCardPermutations_spec (fun _ _ => True)) in Hr;
          [tauto|auto|exact Hg|exact I].
      * intros s g w0 card Hg HPu Hc Hfail. apply IH; auto.
        pose proof (P_room _ _ _ HP Hc Hfail).
        rewrite length_app. simpl. lia.
      * apply Forall_forall. intros card Hc. apply candidates_In in Hc. tauto.
Qed.

End Nesting.

(** With a success on record the loop returns after the first branch. *)
Lemma permutationLoop_won Q condition
    (recurse : Simulation -> Ref -> list FreeCard -> M Simulation)
    (gameState : Ref) (usedCards : list FreeCard) depth :
  forall freeCards sim w,
    result sim = true ->
    exists sim' w' evs,
      permutationLoop recurse gameState condition usedCards freeCards sim w
      = Some (sim', w') /\
      trace w' = trace w ++ evs /\
      loopTrace Q condition depth (store w gameState) usedCards freeCards evs.
Proof.
  induction freeCards as [|card rest IH]; intros sim w Hres.
  - exists sim, w, []. rewrite app_nil_r. repeat split. constructor.
  - simpl. unfold bind at 1, read at 1.
    destruct (freeCardIsUsable (store w gameState) card) eqn:Husable; simpl.
    + destruct (loop_body_run gameState condition card sim
                  (fun branch sim1 =>
                     if result sim1 then ret sim1
                     else sim2 <- recurse sim1 (b_gameState branch)
                                    (usedCards ++ [card]) ;;
                          permutationLoop recurse gameState condition usedCards
                                          rest sim2)
                  w) as (w4 & Heq & Hnext & Hcell & Hframe & Htrace).
      simpl in Heq. rewrite Heq. clear Heq.
      rewrite result_record by exact Hres.
      eexists _, w4, _. split; [reflexivity|]. split; [exact Htrace|].
      now apply loop_return.
    + destruct (IH sim w Hres) as (sim' & w' & evs & Hrun & Htr & Hloop).
      exists sim', w', evs. repeat split; auto. now apply loop_skip.
Qed.

Lemma generateFreeCardPermutations_won
    (Q : nat -> GameState -> list FreeCard -> Prop) condition fuel
    sim gameState usedCards w :
  result sim = true ->
  Q (length usedCards) (store w gameState) usedCards ->
  exists sim' w' evs,
    generateFreeCardPermutations (S fuel) sim gameState condition usedCards w
    = Some (sim', w') /\
    trace w' = trace w ++ evs /\
    callTrace Q condition (length usedCards) (store w gameState) usedCards evs.
Proof.
  intros Hres HQ. simpl. unfold bind at 1, read at 1. unfold bind at 1, emit at 1.
  set (w1 := mkWorld _ _ _).
  destruct (permutationLoop_won Q condition
              (fun s g u => generateFreeCardPermutations fuel s g condition u)
              gameState usedCards (length usedCards)
              (candidates (store w gameState) usedCards) sim w1 Hres)
    as (sim' & w' & evs & Hrun & Htr & Hloop).
  exists sim', w', (EvPermute (store w gameState) condition usedCards :: evs).
  split; [|split].
  - destruct (candidates (store w gameState) usedCards); exact Hrun.
  - rewrite Htr. simpl. now rewrite <- app_assoc.
  - constructor; [exact HQ|exact Hloop].
Qed.

(** What holds of every call holds of every call on the trace. *)
Lemma callTrace_calls Q condition depth v usedCards evs :
  callTrace Q condition depth v usedCards evs ->
  forall v' c u, In (EvPermute v' c u) evs ->
    c = condition /\ exists depth', Q depth' v' u.
Proof.
  revert depth v usedCards evs.
  apply (callTrace_loop_ind Q condition
           (fun _ _ _ evs =>
              forall v' c u, In (EvPermute v' c u) evs ->
                c = condition /\ exists depth', Q depth' v' u)
           (fun _ _ _ _ evs =>
              forall v' c u, In (EvPermute v' c u) evs ->
                c = condition /\ exists depth', Q depth' v' u)).
  - intros depth v u body HQ _ IH v' c u' [Heq|Hin]; [|now apply IH].
    injection Heq as <- <- <-. eauto.
  - intros depth v u v' c u' [].
  - intros depth v u card rest evs _ _ IH. exact IH.
  - intros depth v u card rest _ v' c u' [Heq|[]]. discriminate Heq.
  - intros depth v u card rest below evs _ _ IHbelow _ IHevs v' c u' [Heq|Hin];
      [discriminate Heq|].
    apply in_app_or in Hin. destruct Hin; [now apply IHbelow|now apply IHevs].
Qed.

(** *** The orders that can be played *)

Lemma afterOrder_snoc v order card :
  afterOrder v (order ++ [card])
  = applyFreeCard (clone (clone (afterOrder v order))) card.
Proof. unfold afterOrder. now rewrite fold_left_app. Qed.

Lemma usableOrder_snoc order : forall v usedCards card,
  usableOrder v usedCards (order ++ [card])
  = usableOrder v usedCards order
    && includes (candidates (afterOrder v order) (usedCards ++ order)) card.
Proof.
  induction order as [|c rest IH]; intros v usedCards card; simpl.
  - rewrite app_nil_r. now rewrite andb_true_r.
  - rewrite IH, <- app_assoc. simpl. now rewrite andb_assoc.
Qed.

Lemma openOrder_snoc condition order : forall v usedCards card,
  openOrder condition v usedCards (order ++ [card])
  = openOrder condition v usedCards order
    && (includes (candidates (afterOrder v order) (usedCards ++ order)) card
        && negb (evaluateCondition condition
                   (hand (applyFreeCard (clone (clone (afterOrder v order))) card))
                   (deckList (applyFreeCard (clone (clone (afterOrder v order))) card)))).
Proof.
  induction order as [|c rest IH]; intros v usedCards card; simpl.
  - rewrite app_nil_r. now rewrite andb_true_r.
  - rewrite IH, <- app_assoc. simpl. now rewrite !andb_assoc.
Qed.

(** An order that the search can follow is an order that can be played. *)
Lemma openOrder_usable condition order : forall v usedCards,
  openOrder condition v usedCards order = true ->
  usableOrder v usedCards order = true.
Proof.
  induction order as [|c rest IH]; intros v usedCards; simpl; [reflexivity|].
  rewrite !andb_true_iff. intros [[Hc _] Hrest]. split; [exact Hc|now apply IH].
Qed.

(** The arguments of a recursive call are a playable order and the state it
    leads to, when those of its caller are. *)
Lemma playable_step v0 v usedCards card :
  usableOrder v0 [] usedCards = true /\ v = afterOrder v0 usedCards ->
  In card (candidates v usedCards) ->
  usableOrder v0 [] (usedCards ++ [card]) = true /\
  applyFreeCard (clone (clone v)) card = afterOrder v0 (usedCards ++ [card]).
Proof.
  intros [Hu ->] Hc. split.
  - rewrite usableOrder_snoc, Hu. simpl. now apply includes_In.
  - now rewrite afterOrder_snoc.
Qed.

Lemma open_step condition v0 v usedCards card :
  openOrder condition v0 [] usedCards = true /\ v = afterOrder v0 usedCards ->
  In card (candidates v usedCards) ->
  evaluateCondition condition (hand (applyFreeCard (clone (clone v)) card))
                    (deckList (applyFreeCard (clone (clone v)) card)) = false ->
  openOrder condition v0 [] (usedCards ++ [card]) = true /\
  applyFreeCard (clone (clone v)) card = afterOrder v0 (usedCards ++ [card]).
Proof.
  intros [Hu ->] Hc Hfail. split.
  - rewrite openOrder_snoc, Hu, Hfail. simpl. rewrite andb_true_r.
    now apply includes_In.
  - now rewrite afterOrder_snoc.
Qed.

(** A playable order uses no card twice. *)
Lemma playable_NoDup v0 order :
  usableOrder v0 [] order = true -> NoDup order.
Proof.
  induction order as [|card order IH] using rev_ind; [constructor|].
  rewrite usableOrder_snoc, andb_true_iff. simpl. intros [Hu Hc].
  apply includes_In, candidates_In in Hc. destruct Hc as (_ & _ & Hnew).
  apply NoDup_snoc; auto.
Qed.

(** The cards of an order that the search can follow were in hand when
    their turn came. *)
Lemma open_from_hands condition v0 (F0 : list FreeCard) :
  (forall order, openOrder condition v0 [] order = true ->
     incl (freeCardsInHand (afterOrder v0 order)) F0) ->
  forall order, openOrder condition v0 [] order = true -> incl order F0.
Proof.
  intros Hhands order. induction order as [|card order IH] using rev_ind.
  - intros _ x [].
  - rewrite openOrder_snoc, !andb_true_iff. simpl. intros [Hu [Hc _]].
    apply includes_In, candidates_In in Hc. destruct Hc as (Hhand & _ & _).
    apply incl_app; [now apply IH|]. intros x [<-|[]]. now apply (Hhands order Hu).
Qed.


(** *** [iterate] *)

(** The first two statements of the callback of [iterate]: the baseline
    branch owns the cell [next w], a copy of the simulation's state. *)
Lemma baseline_run {A} sim condition (k : Simulation -> M A) (w : World) :
  let v := clone (store w (s_gameState sim)) in
  let verdict := evaluateCondition condition (hand v) (deckList v) in
  exists w2,
    (branch <- SimulationBranch_new (s_gameState sim) condition ;;
     sim1 <- runBranch sim branch ;;
     k sim1) w
    = k (mkSimulation (s_gameState sim)
           (record (s_branches sim) (mkBranch (next w) verdict condition))
           (s_conditions sim))
        w2 /\
    next w2 = S (next w) /\
    (forall r, r < next w -> store w2 r = store w r) /\
    trace w2 = trace w ++ [EvEvaluate condition (hand v) (deckList v)].
Proof.
  intros v verdict. eexists. split.
  - unfold bind, deepCopy, SimulationBranch_new, runBranch,
      SimulationBranch_run, read, alloc, emit, ret, bind. simpl.
    rewrite !Nat.eqb_refl. reflexivity.
  - simpl. repeat split; auto.
    intros r Hr. destruct (Nat.eqb_spec r (next w)); [lia|reflexivity].
Qed.

Lemma iterateConditions_advances (fuel : nat) :
  forall conditions sim w sim' w',
    s_gameState sim < next w ->
    iterateConditions fuel conditions sim w = Some (sim', w') ->
    advances sim w sim' w' /\
    forall c, In c conditions -> branchesOf (s_branches sim') c <> [].
Proof.
  induction conditions as [|condition rest IH]; intros sim w sim' w' Hgs Hrun.
  - injection Hrun as <- <-. split; [apply advances_refl|intros c []].
  - simpl in Hrun.
    destruct (baseline_run sim condition
                (fun sim1 =>
                   if result sim1 then iterateConditions fuel rest sim1
                   else sim2 <- generateFreeCardPermutations fuel sim1
                                  (s_gameState sim1) condition [] ;;
                        iterateConditions fuel rest sim2)
                w) as (w2 & Heq & Hnext & Hframe & Htrace).
    pose proof (eq_trans (eq_sym Heq) Hrun) as Hk. clear Heq Hrun. simpl in Hk.
    set (ran := mkBranch (next w) _ condition) in *.
    set (sim1 := mkSimulation _ _ _) in *.
    assert (Hadv1 : advances sim w sim1 w2).
    { apply advances_record; [simpl; lia|exact Hframe]. }
    assert (Hhead : branchesOf (s_branches sim1) condition <> []).
    { simpl. rewrite record_branchesOf. destruct (cond_same condition (b_condition ran)).
      - intros H. apply app_eq_nil in H. destruct H as [_ H]. discriminate.
      - simpl in n. congruence. }
    assert (Hkeep : forall s'' w'', advances sim1 w2 s'' w'' ->
                                    branchesOf (s_branches s'') condition <> []).
    { intros s'' w'' Ha. destruct (adv_branches _ _ _ _ Ha condition) as (more & -> & _).
      intros H. apply app_eq_nil in H. destruct H as [H _]. auto. }
    assert (Hrest : forall s2 w3, advances sim1 w2 s2 w3 ->
              iterateConditions fuel rest s2 w3 = Some (sim', w') ->
              advances sim w sim' w' /\
              forall c, In c (condition :: rest) -> branchesOf (s_branches sim') c <> []).
    { intros s2 w3 Ha Hit. apply IH in Hit.
      - destruct Hit as (Ha' & Hall). split.
        + eapply advances_trans; [exact Hadv1|]. eapply advances_trans; eassumption.
        + intros c [<-|Hc]; [|now apply Hall].
          apply (Hkeep sim' w'). eapply advances_trans; eassumption.
      - rewrite (adv_gameState _ _ _ _ Ha). simpl.
        pose proof (adv_next _ _ _ _ Ha). lia. }
    destruct (result sim1) eqn:Hres.
    + apply (Hrest sim1 w2); [apply advances_refl|exact Hk].
    + unfold bind in Hk.
      destruct (generateFreeCardPermutations fuel sim1 (s_gameState sim)
                  condition [] w2) as [[sim2 w3]|] eqn:Hg; [|discriminate].
      apply (generateFreeCardPermutations_spec (fun _ _ => True)) in Hg;
        [|auto|simpl; lia|exact I].
      destruct Hg as (Ha & _). now apply (Hrest sim2 w3).
Qed.

(** C5. When [iterate()] has run to completion, every condition of the
    simulation has an entry in the branch mapping with at least one branch,
    whether or not the hand holds free cards; and every entry that existed
    before the run is still there with its branches, in their order, followed
    by the branches that the run appended. *)
Theorem iterate_records_and_only_appends fuel sim w sim' w' :
  s_gameState sim < next w ->
  iterate fuel sim w = Some (sim', w') ->
  (forall c, In c (s_conditions sim) ->
     exists branches,
       map_get cond_same (s_branches sim') c = Some branches /\ branches <> []) /\
  (forall c branches,
     map_get cond_same (s_branches sim) c = Some branches ->
     exists appended,
       map_get cond_same (s_branches sim') c = Some (branches ++ appended)).
Proof.
  intros Hgs Hrun. apply iterateConditions_advances in Hrun; [|exact Hgs].
  destruct Hrun as (Ha & Hall). split.
  - intros c Hc. specialize (Hall c Hc). unfold branchesOf in Hall.
    destruct (map_get cond_same (s_branches sim') c) as [bs|]; [eauto|congruence].
  - intros c bs Hget.
    destruct (adv_branches _ _ _ _ Ha c) as (more & Heq & _).
    assert (Hkey : map_get cond_same (s_branches sim') c <> None).
    { apply (adv_keys _ _ _ _ Ha). congruence. }
    unfold branchesOf in Heq. rewrite Hget in Heq.
    destruct (map_get cond_same (s_branches sim') c) as [bs'|]; [|congruence].
    exists more. now rewrite Heq.
Qed.

(** C9. Both constructors copy the caller's game state at once into a cell
    of their own and keep the condition(s) they were given: a later change of
    the caller's state is not seen through the branch or the simulation, and
    neither [iterate()] nor a later [run()] or [processFreeCard] on one of
    the recorded branches changes the caller's state. *)
Theorem constructors_isolate_caller_state
    fuel (caller : Ref) condition conditions w :
  caller < next w ->
  (exists branch w1,
      SimulationBranch_new caller condition w = Some (branch, w1) /\
      b_gameState branch <> caller /\
      store w1 (b_gameState branch) = clone (store w caller) /\
      b_condition branch = condition /\
      store w1 caller = store w caller /\
      forall v w2, write caller v w1 = Some (tt, w2) ->
        store w2 (b_gameState branch) = store w1 (b_gameState branch)) /\
  (exists sim w1,
      Simulation_new caller conditions w = Some (sim, w1) /\
      s_gameState sim <> caller /\
      store w1 (s_gameState sim) = clone (store w caller) /\
      s_conditions sim = conditions /\
      store w1 caller = store w caller /\
      (forall v w2, write caller v w1 = Some (tt, w2) ->
         store w2 (s_gameState sim) = store w1 (s_gameState sim)) /\
      forall sim' w',
        iterate fuel sim w1 = Some (sim', w') ->
        store w' caller = store w caller /\
        forall c b, In b (branchesOf (s_branches sim') c) ->
          b_gameState b <> caller /\
          (forall ran w2, SimulationBranch_run b w' = Some (ran, w2) ->
             store w2 caller = store w caller) /\
          (forall card w2, processFreeCard b card w' = Some (tt, w2) ->
             store w2 caller = store w caller)).
Proof.
  intros Hcaller.
  assert (Hne : Nat.eqb caller (next w) = false) by (apply Nat.eqb_neq; lia).
  assert (Hne' : Nat.eqb (next w) caller = false) by (apply Nat.eqb_neq; lia).
  split.
  - eexists _, _. split; [reflexivity|]. simpl. rewrite Nat.eqb_refl, Hne.
    split; [lia|]. do 3 (split; [reflexivity|]).
    intros v w2 [= <-]. simpl. now rewrite Hne', Nat.eqb_refl.
  - eexists _, _. split; [reflexivity|]. simpl. rewrite Nat.eqb_refl, Hne.
    split; [lia|]. do 3 (split; [reflexivity|]).
    split; [intros v w2 [= <-]; simpl; now rewrite Hne', Nat.eqb_refl|].
    intros sim' w' Hrun. apply iterateConditions_advances in Hrun; [|simpl; lia].
    destruct Hrun as (Ha & _).
    assert (Hsame : store w' caller = store w caller).
    { rewrite (adv_store _ _ _ _ Ha) by (simpl; lia). simpl. now rewrite Hne. }
    split; [exact Hsame|]. intros c b Hb.
    destruct (adv_branches _ _ _ _ Ha c) as (more & Heq & Hfresh).
    simpl in Heq. rewrite Heq in Hb. simpl in Hb.
    specialize (Hfresh b Hb). simpl in Hfresh.
    assert (Hb' : Nat.eqb caller (b_gameState b) = false) by (apply Nat.eqb_neq; lia).
    split; [lia|]. split.
    + intros ran w2 [= _ <-]. exact Hsame.
    + intros card w2 [= <-]. simpl. now rewrite Hb'.
Qed.

(** *** After a success

    Once [result] is true, the [forEach] of [iterate] still visits every
    remaining condition: each gets its baseline branch, evaluated and
    recorded, and no free-card permutation. *)

Lemma flat_map_set_absent (m : Branches) c bs :
  map_get cond_same m c = None ->
  length (flatBranches (map_set cond_same m c bs))
  = length (flatBranches m) + length bs.
Proof.
  unfold flatBranches. induction m as [|[k v] m IH]; simpl.
  - intros _. rewrite app_nil_r. reflexivity.
  - destruct (cond_same k c); [discriminate|]. intros H. simpl.
    rewrite !length_app. rewrite (IH H). lia.
Qed.

Lemma flat_map_set_present (m : Branches) c old bs :
  map_get cond_same m c = Some old ->
  length (flatBranches (map_set cond_same m c bs)) + length old
  = length (flatBranches m) + length bs.
Proof.
  unfold flatBranches. induction m as [|[k v] m IH]; simpl; [discriminate|].
  destruct (cond_same k c).
  - intros [= ->]. simpl. rewrite !length_app. lia.
  - intros H. simpl. rewrite !length_app. specialize (IH H). lia.
Qed.

Lemma flat_record_length (m : Branches) (b : SimulationBranch) :
  length (flatBranches (record m b)) = S (length (flatBranches m)).
Proof.
  unfold record, map_has.
  destruct (map_get cond_same m (b_condition b)) as [old|] eqn:Hg.
  - rewrite Hg. pose proof (flat_map_set_present m _ old (old ++ [b]) Hg) as H.
    rewrite length_app in H. simpl in H. lia.
  - rewrite map_get_set_same.
    pose proof (flat_map_set_present (map_set cond_same m (b_condition b) [])
                  (b_condition b) [] ([] ++ [b]) (map_get_set_same _ _ _)) as H.
    rewrite (flat_map_set_absent m _ [] Hg) in H. simpl in H. simpl. lia.
Qed.

Lemma iterateConditions_after_success (fuel : nat) :
  forall conditions sim w,
    result sim = true ->
    exists sim' w' evs,
      iterateConditions fuel conditions sim w = Some (sim', w') /\
      result sim' = true /\
      length (flatBranches (s_branches sim'))
      = length (flatBranches (s_branches sim)) + length conditions /\
      trace w' = trace w ++ evs /\
      length evs = length conditions /\ Forall isEvaluate evs.
Proof.
  induction conditions as [|condition rest IH]; intros sim w Hres.
  - exists sim, w, []. simpl. rewrite app_nil_r, Nat.add_0_r.
    repeat split; auto.
  - simpl.
    destruct (baseline_run sim condition
                (fun sim1 =>
                   if result sim1 then iterateConditions fuel rest sim1
                   else sim2 <- generateFreeCardPermutations fuel sim1
                                  (s_gameState sim1) condition [] ;;
                        iterateConditions fuel rest sim2)
                w) as (w2 & Heq & Hnext & Hframe & Htrace).
    simpl in Heq. rewrite Heq. clear Heq.
    set (ran := mkBranch (next w) _ condition) in *.
    pose proof (result_record sim ran Hres) as Hres1. rewrite Hres1.
    destruct (IH _ w2 Hres1) as (sim' & w' & evs & Hrun & Hres' & Hlen & Htr & Hn & Hev).
    exists sim', w', (EvEvaluate condition
                        (hand (clone (store w (s_gameState sim))))
                        (deckList (clone (store w (s_gameState sim)))) :: evs).
    split; [exact Hrun|]. split; [exact Hres'|]. split.
    { rewrite Hlen. simpl. rewrite flat_record_length. lia. }
    split.
    { rewrite Htr, Htrace, <- app_assoc. reflexivity. }
    split; [simpl; lia|]. constructor; [exact I|exact Hev].
Qed.

(** *** Serialisation *)

Lemma builds_refl w : builds w w.
Proof. repeat split; auto. Qed.

Lemma builds_trans w1 w2 w3 : builds w1 w2 -> builds w2 w3 -> builds w1 w3.
Proof.
  intros (N1 & S1 & T1) (N2 & S2 & T2). repeat split.
  - lia.
  - intros r Hr. rewrite S2 by lia. now apply S1.
  - congruence.
Qed.

Lemma mapM_serialise (bs : list SimulationBranch) (w : World) :
  mapM SimulationBranch_serialise bs w = Some (map (serialisedBranch w) bs, w).
Proof.
  induction bs as [|b bs IH]; [reflexivity|].
  simpl. unfold bind at 1. unfold SimulationBranch_serialise at 1.
  unfold bind at 1, GameState_serialise, bind at 1, read, ret. simpl.
  unfold bind. rewrite IH. reflexivity.
Qed.

Lemma serialise_eq (sim : Simulation) (w : World) :
  serialise sim w
  = Some (mkSerialisedSimulation
            (encodeGameState (store w (s_gameState sim)))
            (map serialiseCondition (s_conditions sim))
            (map (serialisedBranch w) (flatBranches (s_branches sim))),
          w).
Proof.
  unfold serialise, bind at 1, GameState_serialise, bind at 1, read, ret.
  simpl. unfold bind.
  assert (H : forall m : Branches,
             mapM (fun entry => mapM SimulationBranch_serialise (snd entry)) m w
             = Some (map (fun entry => map (serialisedBranch w) (snd entry)) m, w)).
  { induction m as [|e m IH]; [reflexivity|].
    simpl. unfold bind. rewrite mapM_serialise, IH. reflexivity. }
  rewrite H. unfold flatBranches. rewrite concat_map, map_map. reflexivity.
Qed.

Lemma SimulationBranch_deserialise_eq (sb : SerialisedSimulationBranch) (w : World) :
  exists w',
    SimulationBranch_deserialise sb w
    = Some (mkBranch (S (S (next w))) (sb_result sb)
                     (deserialiseCondition (S (next w)) (sb_condition sb)), w') /\
    next w' = S (S (S (next w))) /\
    builds w w' /\
    store w' (S (S (next w))) = clone (decodeGameState (sb_gameState sb)).
Proof.
  eexists. split.
  - unfold SimulationBranch_deserialise, bind, GameState_deserialize, newCondition,
      SimulationBranch_new, deepCopy, bind, read, alloc, ret. simpl.
    rewrite Nat.eqb_refl. reflexivity.
  - unfold builds. simpl. rewrite Nat.eqb_refl.
    split; [reflexivity|]. split; [|reflexivity].
    split; [lia|]. split; [|reflexivity].
    intros r Hr.
    destruct (Nat.eqb_spec r (S (S (next w)))); [lia|].
    destruct (Nat.eqb_spec r (next w)); [lia|reflexivity].
Qed.

Lemma mapM_deserialise (sbs : list SerialisedSimulationBranch) :
  forall w, exists w',
    mapM SimulationBranch_deserialise sbs w
    = Some (decodedBranches (next w) sbs, w') /\
    builds w w' /\
    Forall2 (fun sb b =>
               next w <= b_gameState b /\
               store w' (b_gameState b) = clone (decodeGameState (sb_gameState sb)))
            sbs (decodedBranches (next w) sbs).
Proof.
  induction sbs as [|sb rest IH]; intros w.
  - exists w. simpl. split; [reflexivity|]. split; [apply builds_refl|constructor].
  - destruct (SimulationBranch_deserialise_eq sb w) as (w1 & Heq & Hn & Hb & Hcell).
    destruct (IH w1) as (w' & Hrest & Hb' & Hall).
    exists w'. simpl. unfold bind at 1. rewrite Heq.
    unfold bind at 1. rewrite Hrest, Hn. split; [reflexivity|].
    split; [eapply builds_trans; eassumption|].
    constructor.
    + simpl. split; [lia|]. destruct Hb' as (_ & Hs & _).
      rewrite Hs by lia. exact Hcell.
    + rewrite Hn in Hall. eapply Forall2_impl; [|exact Hall].
      simpl. intros sb' b' [Hle Hst]. split; [lia|exact Hst].
Qed.

Lemma mapM_newCondition (l : list SerialisedCondition) :
  forall w,
    mapM newCondition l w
    = Some (decodedConditions (next w) l,
            mkWorld (store w) (length l + next w) (trace w)).
Proof.
  induction l as [|s rest IH]; intros w.
  - destruct w. reflexivity.
  - simpl. unfold bind at 1, newCondition at 1. unfold bind at 1.
    rewrite IH. simpl. rewrite Nat.add_succ_r. reflexivity.
Qed.

(** The simulation that [Simulation.deserialise] returns. *)
Lemma deserialise_eq (ss : SerialisedSimulation) (w : World) :
  let own := length (ss_conditions ss) + S (next w) in
  exists w',
    deserialise ss w
    = Some (mkSimulation own
              (fold_left record (decodedBranches (S own) (ss_branches ss)) [])
              (decodedConditions (S (next w)) (ss_conditions ss)),
            w') /\
    builds w w' /\
    store w' own = clone (decodeGameState (ss_gameState ss)) /\
    Forall2 (fun sb b =>
               store w' (b_gameState b) = clone (decodeGameState (sb_gameState sb)))
            (ss_branches ss) (decodedBranches (S own) (ss_branches ss)).
Proof.
  intros own. unfold deserialise.
  unfold bind at 1, GameState_deserialize, alloc.
  unfold bind at 1. rewrite mapM_newCondition. simpl.
  unfold bind at 1, Simulation_new, bind at 1, deepCopy, bind at 1, read, alloc, ret.
  simpl. fold own.
  set (w1 := mkWorld _ (S own) _).
  destruct (mapM_deserialise (ss_branches ss) w1) as (w' & Hmap & Hb & Hall).
  exists w'. unfold bind. rewrite Hmap. simpl. split; [reflexivity|].
  destruct Hb as (Hn & Hs & Ht). simpl in Hn, Hs, Ht.
  split; [|split].
  - repeat split; [unfold own in Hn; lia| |exact Ht].
    intros r Hr. rewrite Hs by (unfold own; lia).
    destruct (Nat.eqb_spec r own); [unfold own in *; lia|].
    destruct (Nat.eqb_spec r (next w)); [lia|reflexivity].
  - rewrite Hs by lia. rewrite !Nat.eqb_refl. reflexivity.
  - eapply Forall2_impl; [|exact Hall]. simpl. tauto.
Qed.

(** C8. [SimulationBranch.deserialise] builds the branch with the
    constructor, on a copy of the decoded game state and with the decoded
    condition, and then stores the persisted [result] in it.  The evaluator
    is not called and no existing game state changes; a [run()] of the branch
    would store the evaluator's verdict instead. *)
Theorem SimulationBranch_deserialise_keeps_persisted_result
    (sb : SerialisedSimulationBranch) (w : World) :
  exists branch w',
    SimulationBranch_deserialise sb w = Some (branch, w') /\
    b_result branch = sb_result sb /\
    (exists decoded w0,
        store w0 decoded = decodeGameState (sb_gameState sb) /\
        SimulationBranch_new decoded (b_condition branch) w0
        = Some (mkBranch (b_gameState branch) false (b_condition branch), w')) /\
    store w' (b_gameState branch) = clone (decodeGameState (sb_gameState sb)) /\
    (exists n, b_condition branch = deserialiseCondition n (sb_condition sb)) /\
    trace w' = trace w /\
    (forall r, r < next w -> store w' r = store w r) /\
    (forall ran w2, SimulationBranch_run branch w' = Some (ran, w2) ->
       b_result ran
       = evaluateCondition (b_condition branch)
           (hand (clone (decodeGameState (sb_gameState sb))))
           (deckList (clone (decodeGameState (sb_gameState sb))))).
Proof.
  destruct (SimulationBranch_deserialise_eq sb w) as (w' & Heq & Hn & Hb & Hcell).
  eexists _, w'. split; [exact Heq|]. simpl. split; [reflexivity|].
  split.
  { exists (next w),
      (mkWorld (fun r => if Nat.eqb r (next w) then decodeGameState (sb_gameState sb)
                         else store w r)
               (S (S (next w))) (trace w)).
    simpl. rewrite Nat.eqb_refl. split; [reflexivity|].
    rewrite SimulationBranch_new_eq. simpl. rewrite Nat.eqb_refl.
    unfold SimulationBranch_deserialise, bind, GameState_deserialize, newCondition,
      SimulationBranch_new, deepCopy, bind, read, alloc, ret in Heq.
    simpl in Heq. rewrite Nat.eqb_refl in Heq. injection Heq as <-. reflexivity. }
  split; [exact Hcell|]. split; [eauto|].
  destruct Hb as (_ & Hs & Ht). split; [exact Ht|]. split; [exact Hs|].
  intros ran w2 [= <- _]. simpl. now rewrite Hcell.
Qed.

(** *** Grouping of the decoded branches *)

Lemma map_set_absent (m : Branches) c bs :
  map_get cond_same m c = None -> map_set cond_same m c bs = m ++ [(c, bs)].
Proof.
  induction m as [|[k v] m IH]; simpl; [reflexivity|].
  destruct (cond_same k c); [discriminate|]. intros H. now rewrite IH.
Qed.

Lemma map_set_last (m : Branches) c old bs :
  map_get cond_same m c = None ->
  map_set cond_same (m ++ [(c, old)]) c bs = m ++ [(c, bs)].
Proof.
  induction m as [|[k v] m IH]; simpl.
  - intros _. destruct (cond_same c c); congruence.
  - destruct (cond_same k c); [discriminate|]. intros H. now rewrite IH.
Qed.

Lemma map_get_app_other (m : Branches) c c' bs :
  c' <> c -> map_get cond_same (m ++ [(c, bs)]) c' = map_get cond_same m c'.
Proof.
  intros Hne. induction m as [|[k v] m IH]; simpl.
  - destruct (cond_same c c'); congruence.
  - destruct (cond_same k c'); [reflexivity|exact IH].
Qed.

(** A branch under a condition that has no entry yet gets an entry of its
    own, after the entries that exist. *)
Lemma record_absent (m : Branches) (b : SimulationBranch) :
  map_get cond_same m (b_condition b) = None ->
  record m b = m ++ [(b_condition b, [b])].
Proof.
  intros Hg. unfold record, map_has. rewrite Hg, map_get_set_same.
  rewrite (map_set_absent m _ [] Hg). now apply map_set_last.
Qed.

Lemma fold_record_distinct (bs : list SimulationBranch) :
  forall m : Branches,
    NoDup (map b_condition bs) ->
    (forall b, In b bs -> map_get cond_same m (b_condition b) = None) ->
    fold_left record bs m = m ++ map (fun b => (b_condition b, [b])) bs.
Proof.
  induction bs as [|b bs IH]; intros m Hnd Hfree; simpl.
  - now rewrite app_nil_r.
  - inversion Hnd as [|? ? Hb Hnd']; subst.
    rewrite record_absent by (apply Hfree; now left).
    rewrite IH; [now rewrite <- app_assoc|exact Hnd'|].
    intros b' Hb'. rewrite map_get_app_other.
    + apply Hfree. now right.
    + intros Heq. apply Hb. rewrite <- Heq. now apply in_map.
Qed.

(** C10. [Simulation.deserialise] files every decoded branch under the
    condition object decoded for that branch; the decoded [conditions] list
    plays no part.  When these condition objects are pairwise distinct, the
    branch mapping has one entry per branch, in the order of the serialised
    branches, however the conditions compare by content. *)
Theorem deserialise_files_each_branch_under_its_own_condition
    (ss : SerialisedSimulation) (w : World) :
  let branches :=
    decodedBranches (S (length (ss_conditions ss) + S (next w))) (ss_branches ss) in
  NoDup (map b_condition branches) ->
  exists sim w',
    deserialise ss w = Some (sim, w') /\
    s_branches sim = map (fun b => (b_condition b, [b])) branches /\
    Forall2 (fun sb b =>
               b_result b = sb_result sb /\
               exists n, b_condition b = deserialiseCondition n (sb_condition sb))
            (ss_branches ss) branches.
Proof.
  intros branches Hnd.
  destruct (deserialise_eq ss w) as (w' & Heq & _).
  eexists _, w'. split; [exact Heq|]. simpl. fold branches. split.
  - rewrite fold_record_distinct; [reflexivity|exact Hnd|reflexivity].
  - unfold branches. clear. generalize (S (length (ss_conditions ss) + S (next w))).
    induction (ss_branches ss) as [|sb rest IH]; intros n; simpl; constructor.
    + simpl. eauto.
    + apply IH.
Qed.

(** *** Regrouping *)

Lemma NoDup_app_one {A} (l : list A) (a : A) :
  NoDup l -> ~ In a l -> NoDup (l ++ [a]).
Proof.
  intros Hl Hnew. induction Hl as [|x l Hx Hl IH]; simpl.
  - constructor; [intros []|constructor].
  - constructor.
    + intros Hin. apply in_app_or in Hin. destruct Hin as [Hin|[->|[]]].
      * contradiction.
      * apply Hnew. now left.
    + apply IH. intros Hin. apply Hnew. now right.
Qed.

Lemma map_get_absent_key (m : Branches) c :
  map_get cond_same m c = None -> ~ In c (map fst m).
Proof.
  induction m as [|[k v] m IH]; simpl; [tauto|].
  destruct (cond_same k c); [discriminate|]. intros H [Heq|Hin]; [auto|].
  now apply IH.
Qed.

Lemma map_get_no_key (m : Branches) c :
  ~ In c (map fst m) -> map_get cond_same m c = None.
Proof.
  induction m as [|[k v] m IH]; simpl; [reflexivity|].
  intros Hno. destruct (cond_same k c); [tauto|]. apply IH. tauto.
Qed.

Lemma fold_record_branchesOf (bs : list SimulationBranch) :
  forall (m : Branches) c,
    branchesOf (fold_left record bs m) c
    = branchesOf m c
      ++ filter (fun b => if cond_same c (b_condition b) then true else false) bs.
Proof.
  induction bs as [|b bs IH]; intros m c; simpl.
  - now rewrite app_nil_r.
  - rewrite IH, record_branchesOf, <- app_assoc.
    destruct (cond_same c (b_condition b)); reflexivity.
Qed.

Lemma fold_record_flat_length (bs : list SimulationBranch) :
  forall m : Branches,
    length (flatBranches (fold_left record bs m))
    = length (flatBranches m) + length bs.
Proof.
  induction bs as [|b bs IH]; intros m; simpl; [lia|].
  rewrite IH, flat_record_length. lia.
Qed.

Lemma flatBranches_app (m m' : Branches) :
  flatBranches (m ++ m') = flatBranches m ++ flatBranches m'.
Proof. unfold flatBranches. now rewrite map_app, concat_app. Qed.

Lemma map_get_key (m : Branches) c bs :
  map_get cond_same m c = Some bs -> In c (map fst m).
Proof.
  intros H. apply map_get_In in H. change c with (fst (c, bs)). now apply in_map.
Qed.

Lemma map_get_app_last (m : Branches) c bs :
  map_get cond_same m c = None -> map_get cond_same (m ++ [(c, bs)]) c = Some bs.
Proof.
  induction m as [|[k v] m IH]; simpl.
  - intros _. destruct (cond_same c c); congruence.
  - destruct (cond_same k c); [discriminate|exact IH].
Qed.

(** A branch under the condition of the last entry joins that entry. *)
Lemma record_last (m : Branches) (b : SimulationBranch) old :
  map_get cond_same m (b_condition b) = None ->
  record (m ++ [(b_condition b, old)]) b = m ++ [(b_condition b, old ++ [b])].
Proof.
  intros Hg. pose proof (map_get_app_last m _ old Hg) as Hlast.
  unfold record, map_has. cbv zeta. rewrite Hlast. cbv beta iota.
  rewrite Hlast. now apply map_set_last.
Qed.

Lemma flat_map_set_perm (m : Branches) c old more :
  map_get cond_same m c = Some old ->
  Permutation (flatBranches (map_set cond_same m c (old ++ more)))
              (flatBranches m ++ more).
Proof.
  unfold flatBranches. induction m as [|[k v] m IH]; simpl; [discriminate|].
  destruct (cond_same k c).
  - intros [= ->]. simpl. rewrite <- !app_assoc.
    apply Permutation_app_head, Permutation_app_comm.
  - intros H. simpl. rewrite <- app_assoc. apply Permutation_app_head. now apply IH.
Qed.

Lemma flat_record_perm (m : Branches) (b : SimulationBranch) :
  Permutation (flatBranches (record m b)) (flatBranches m ++ [b]).
Proof.
  destruct (map_get cond_same m (b_condition b)) as [old|] eqn:Hg.
  - unfold record, map_has. cbv zeta. rewrite Hg. cbv beta iota. rewrite Hg.
    now apply flat_map_set_perm.
  - rewrite record_absent by exact Hg. rewrite flatBranches_app.
    unfold flatBranches at 2. simpl. reflexivity.
Qed.

(** Recording keeps every branch: the flattened mapping holds the branches
    it held and the branches recorded, in some order. *)
Lemma fold_record_perm (bs : list SimulationBranch) :
  forall m : Branches,
    Permutation (flatBranches (fold_left record bs m)) (flatBranches m ++ bs).
Proof.
  induction bs as [|b bs IH]; intros m; simpl.
  - now rewrite app_nil_r.
  - rewrite IH. rewrite (flat_record_perm m b), <- app_assoc. reflexivity.
Qed.

Lemma grouped_cons c (rest : list BaseCondition) :
  grouped (c :: rest) = true ->
  grouped rest = true /\ (In c rest -> exists rest', rest = c :: rest').
Proof.
  simpl. destruct rest as [|c' rest']; [intros _; split; [reflexivity|intros []]|].
  rewrite andb_true_iff. intros [Hnext Hrest]. split; [exact Hrest|].
  intros Hin. destruct (cond_same c c') as [->|Hne]; [eauto|].
  apply negb_true_iff in Hnext. exfalso.
  assert (Hex : existsb (fun x => if cond_same c x then true else false) (c' :: rest')
                = true).
  { apply existsb_exists. exists c. split; [exact Hin|].
    destruct (cond_same c c); congruence. }
  congruence.
Qed.

(** Branches that come group by group are recorded in their order: the one
    entry that may take them is the last. *)
Lemma fold_record_grouped (bs : list SimulationBranch) :
  forall m : Branches,
    NoDup (map fst m) ->
    grouped (map b_condition bs) = true ->
    (forall c, In c (map b_condition bs) -> In c (map fst m) ->
       (exists m' old, m = m' ++ [(c, old)]) /\
       exists rest, map b_condition bs = c :: rest) ->
    flatBranches (fold_left record bs m) = flatBranches m ++ bs.
Proof.
  induction bs as [|b bs IH]; intros m Hnd Hg Hkeys; simpl.
  - now rewrite app_nil_r.
  - simpl in Hg. apply grouped_cons in Hg. destruct Hg as [Hg Hnext].
    destruct (map_get cond_same m (b_condition b)) as [old|] eqn:Hget.
    + destruct (Hkeys (b_condition b)) as ((m' & old' & ->) & _);
        [now left|now apply map_get_key in Hget|].
      assert (Hnew : map_get cond_same m' (b_condition b) = None).
      { apply map_get_no_key. rewrite map_app in Hnd. simpl in Hnd.
        apply NoDup_remove_2 in Hnd. rewrite app_nil_r in Hnd. exact Hnd. }
      rewrite record_last by exact Hnew.
      rewrite IH.
      * rewrite !flatBranches_app. unfold flatBranches at 2 4. simpl.
        rewrite !app_nil_r, <- !app_assoc. reflexivity.
      * rewrite map_app in *. exact Hnd.
      * exact Hg.
      * intros c Hc Hk.
        assert (Hk' : In c (map fst (m' ++ [(b_condition b, old')])))
          by (rewrite map_app in *; exact Hk).
        destruct (Hkeys c (or_intror Hc) Hk') as (_ & rest & Heq).
        injection Heq as Hhead _. subst c. split; [eauto|].
        apply Hnext. exact Hc.
    + rewrite record_absent by exact Hget.
      rewrite IH.
      * rewrite flatBranches_app. unfold flatBranches at 2. simpl.
        rewrite <- app_assoc. reflexivity.
      * rewrite map_app. simpl. apply NoDup_app_one; [exact Hnd|].
        now apply map_get_absent_key.
      * exact Hg.
      * intros c Hc Hk. rewrite map_app in Hk. apply in_app_or in Hk.
        assert (Hhead : c = b_condition b).
        { destruct Hk as [Hk|[Hk|[]]]; [|now symmetry].
          destruct (Hkeys c (or_intror Hc) Hk) as (_ & rest & Heq).
          now injection Heq as Hhead _. }
        subst c. split; [eauto|]. apply Hnext. exact Hc.
Qed.

Lemma map_get_of_entry (m : Branches) c bs :
  NoDup (map fst m) -> In (c, bs) m -> map_get cond_same m c = Some bs.
Proof.
  induction m as [|[k v] m IH]; simpl; [tauto|].
  intros Hnd [Heq|Hin].
  - injection Heq as -> ->. destruct (cond_same c c); congruence.
  - inversion Hnd as [|? ? Hk Hnd']; subst.
    destruct (cond_same k c) as [->|Hne]; [|now apply IH].
    exfalso. apply Hk. change c with (fst (c, bs)). now apply in_map.
Qed.

Lemma map_set_keys (m : Branches) c bs :
  map fst (map_set cond_same m c bs)
  = if map_has cond_same m c then map fst m else map fst m ++ [c].
Proof.
  unfold map_has. induction m as [|[k v] m IH]; simpl; [reflexivity|].
  destruct (cond_same k c) as [->|Hne]; simpl; [reflexivity|].
  rewrite IH. destruct (map_get cond_same m c); reflexivity.
Qed.

Lemma record_keys (m : Branches) (b : SimulationBranch) :
  map fst (record m b)
  = if map_has cond_same m (b_condition b) then map fst m
    else map fst m ++ [b_condition b].
Proof.
  unfold record. destruct (map_has cond_same m (b_condition b)) eqn:Hhas.
  - unfold map_has in Hhas.
    destruct (map_get cond_same m (b_condition b)) eqn:Hg; [|discriminate].
    rewrite map_set_keys. unfold map_has. now rewrite Hg.
  - rewrite map_get_set_same, map_set_keys.
    unfold map_has at 1. rewrite map_get_set_same.
    rewrite map_set_keys, Hhas. reflexivity.
Qed.

Lemma record_keys_distinct (m : Branches) (b : SimulationBranch) :
  NoDup (map fst m) -> NoDup (map fst (record m b)).
Proof.
  intros Hnd. rewrite record_keys. unfold map_has.
  destruct (map_get cond_same m (b_condition b)) eqn:Hg; [exact Hnd|].
  apply NoDup_app_one; [exact Hnd|now apply map_get_absent_key].
Qed.

(** A mapping is filed by condition when no condition has two entries and
    every branch is found under its own condition; recording keeps it so. *)
Lemma record_filed (m : Branches) (b : SimulationBranch) :
  NoDup (map fst m) ->
  (forall c g x, In (c, g) m -> In x g -> b_condition x = c) ->
  forall c g x, In (c, g) (record m b) -> In x g -> b_condition x = c.
Proof.
  intros Hnd Hfiled c g x Hin Hx.
  pose proof (map_get_of_entry _ _ _ (record_keys_distinct m b Hnd) Hin) as Hg.
  destruct (cond_same c (b_condition b)) as [->|Hne].
  - rewrite record_get_same in Hg. injection Hg as <-.
    apply in_app_or in Hx. destruct Hx as [Hx|[<-|[]]]; [|reflexivity].
    unfold branchesOf in Hx.
    destruct (map_get cond_same m (b_condition b)) as [old|] eqn:Hold; [|destruct Hx].
    apply map_get_In in Hold. exact (Hfiled _ _ _ Hold Hx).
  - rewrite record_get_other in Hg by exact Hne.
    apply map_get_In in Hg. exact (Hfiled _ _ _ Hg Hx).
Qed.

Lemma fold_record_filed (bs : list SimulationBranch) :
  forall m : Branches,
    NoDup (map fst m) ->
    (forall c g x, In (c, g) m -> In x g -> b_condition x = c) ->
    NoDup (map fst (fold_left record bs m)) /\
    forall c g x, In (c, g) (fold_left record bs m) -> In x g -> b_condition x = c.
Proof.
  induction bs as [|b bs IH]; intros m Hnd Hfiled; simpl; [now split|].
  apply IH; [now apply record_keys_distinct|now apply record_filed].
Qed.

Lemma grouped_run c (run rest : list BaseCondition) :
  (forall x, In x run -> x = c) -> ~ In c rest -> grouped rest = true ->
  grouped (run ++ rest) = true.
Proof.
  intros Hrun Hnew Hrest. induction run as [|x run IH]; [exact Hrest|].
  assert (Hx : x = c) by (apply Hrun; now left). subst x.
  assert (IH' : grouped (run ++ rest) = true)
    by (apply IH; intros x Hin; apply Hrun; now right).
  change (grouped ((c :: run) ++ rest))
    with (match run ++ rest with
          | [] => true
          | c' :: _ =>
              if cond_same c c' then true
              else negb (existsb (fun x => if cond_same c x then true else false)
                                 (run ++ rest))
          end && grouped (run ++ rest)).
  rewrite IH', andb_true_r.
  destruct run as [|y run]; simpl.
  - destruct rest as [|c' rest']; [reflexivity|].
    destruct (cond_same c c') as [->|Hne]; [reflexivity|].
    apply negb_true_iff.
    destruct (existsb _ (c' :: rest')) eqn:Hex; [|reflexivity].
    apply existsb_exists in Hex. destruct Hex as (x & Hin & Hsame).
    destruct (cond_same c x) as [->|]; [contradiction|discriminate].
  - assert (Hy : y = c) by (apply Hrun; right; now left). subst y.
    destruct (cond_same c c); [reflexivity|congruence].
Qed.

(** The flattened branches of a mapping that is filed by condition come
    group by group. *)
Lemma grouped_flat (m : Branches) :
  NoDup (map fst m) ->
  (forall c g x, In (c, g) m -> In x g -> b_condition x = c) ->
  grouped (map b_condition (flatBranches m)) = true.
Proof.
  induction m as [|[c g] m IH]; intros Hnd Hfiled; [reflexivity|].
  change (flatBranches ((c, g) :: m)) with (g ++ flatBranches m).
  rewrite map_app. inversion Hnd as [|? ? Hc Hnd']; subst.
  apply (grouped_run c).
  - intros x Hx. apply in_map_iff in Hx. destruct Hx as (b & <- & Hb).
    apply (Hfiled c g b); [now left|exact Hb].
  - intros Hin. apply in_map_iff in Hin. destruct Hin as (b & Hcond & Hb).
    unfold flatBranches in Hb. apply in_concat in Hb.
    destruct Hb as (g' & Hg' & Hb). apply in_map_iff in Hg'.
    destruct Hg' as ([c' g''] & Heq & Hentry). simpl in Heq. subst g''.
    assert (Hc' : c' = c).
    { rewrite <- Hcond. symmetry. apply (Hfiled c' g' b); [now right|exact Hb]. }
    subst c'. apply Hc. change c with (fst (c, g')). now apply in_map.
  - apply IH; [exact Hnd'|]. intros c' g' x Hin. apply Hfiled. now right.
Qed.

(** *** Round trip *)

Lemma flatBranches_singletons (bs : list SimulationBranch) :
  flatBranches (map (fun b => (b_condition b, [b])) bs) = bs.
Proof.
  unfold flatBranches. induction bs as [|b bs IH]; simpl; [reflexivity|].
  now rewrite IH.
Qed.

Lemma decodedBranches_stamps (sbs : list SerialisedSimulationBranch) :
  forall n c, In c (map b_condition (decodedBranches n sbs)) ->
              exists k s, n < k /\ c = deserialiseCondition k s.
Proof.
  induction sbs as [|sb rest IH]; intros n c; simpl; [intros []|].
  intros [<-|Hin].
  - exists (S n), (sb_condition sb). split; [lia|reflexivity].
  - destruct (IH _ _ Hin) as (k & s & Hk & ->). exists k, s. split; [lia|reflexivity].
Qed.

(** A decoder that returns a new object at every call gives every branch a
    condition of its own. *)
Lemma decodedBranches_distinct :
  (forall n m s t, n <> m -> deserialiseCondition n s <> deserialiseCondition m t) ->
  forall (sbs : list SerialisedSimulationBranch) n,
    NoDup (map b_condition (decodedBranches n sbs)).
Proof.
  intros decoded_condition_is_new.
  induction sbs as [|sb rest IH]; intros n; simpl; constructor.
  - intros Hin. destruct (decodedBranches_stamps _ _ _ Hin) as (k & s & Hk & Heq).
    revert Heq. apply decoded_condition_is_new. lia.
  - apply IH.
Qed.

Section Roundtrip.

(** Equality by value of game states and of conditions, and what the
    collaborators promise about it: a deep copy and a decoded encoding are
    equal by value to the original. *)
Variable sameState : GameState -> GameState -> Prop.
Variable sameCondition : BaseCondition -> BaseCondition -> Prop.
Hypothesis sameState_trans : forall a b c,
  sameState a b -> sameState b c -> sameState a c.
Hypothesis clone_same : forall v, sameState (clone v) v.
Hypothesis decode_encode_state : forall v,
  sameState (decodeGameState (encodeGameState v)) v.
Hypothesis decode_encode_condition : forall n c,
  sameCondition (deserialiseCondition n (serialiseCondition c)) c.

Lemma decodedConditions_same (conditions : list BaseCondition) :
  forall n, Forall2 sameCondition
              (decodedConditions n (map serialiseCondition conditions)) conditions.
Proof using decode_encode_condition.
  induction conditions as [|c rest IH]; intros n; simpl; constructor; auto.
Qed.

Lemma decodedBranches_same (w w' : World) (flat : list SimulationBranch) :
  forall n,
    Forall2 (fun sb b =>
               store w' (b_gameState b) = clone (decodeGameState (sb_gameState sb)))
            (map (serialisedBranch w) flat)
            (decodedBranches n (map (serialisedBranch w) flat)) ->
    Forall2 (fun b' b =>
               b_result b' = b_result b /\
               sameCondition (b_condition b') (b_condition b) /\
               sameState (store w' (b_gameState b')) (store w (b_gameState b)))
            (decodedBranches n (map (serialisedBranch w) flat)) flat.
Proof using clone_same decode_encode_condition decode_encode_state sameState_trans.
  induction flat as [|b rest IH]; intros n H; simpl in *; [constructor|].
  inversion H as [|? ? ? ? Hhead Htail]; subst. constructor.
  - simpl in *. split; [reflexivity|]. split; [apply decode_encode_condition|].
    rewrite Hhead. eapply sameState_trans; [apply clone_same|].
    apply decode_encode_state.
  - apply IH. exact Htail.
Qed.

Lemma same_results (R : SimulationBranch -> SimulationBranch -> Prop)
    (l' l : list SimulationBranch) :
  Forall2 (fun b' b => b_result b' = b_result b /\ R b' b) l' l ->
  map b_result l' = map b_result l.
Proof.
  intros H. induction H as [|b' b l1 l2 [Hr _] _ IH]; simpl; [reflexivity|].
  now rewrite Hr, IH.
Qed.


End Roundtrip.

(** ** Further properties *)

(** *** What every step of the engine keeps

    [Inv] is kept when a branch that was just built and run is recorded and
    when the search is entered; then [iterate] keeps it. *)
Section Keeps.

Variable Inv : Simulation -> World -> Prop.

Hypothesis Inv_record : forall sim w w' b,
  Inv sim w ->
  next w <= b_gameState b < next w' ->
  (forall r, r < next w -> store w' r = store w r) ->
  b_result b = verdictOf w' b ->
  trace w' = trace w ++ [EvEvaluate (b_condition b)
                                    (hand (store w' (b_gameState b)))
                                    (deckList (store w' (b_gameState b)))] ->
  Inv (mkSimulation (s_gameState sim) (record (s_branches sim) b)
                    (s_conditions sim)) w'.

Hypothesis Inv_enter : forall sim w v c u,
  Inv sim w -> Inv sim (mkWorld (store w) (next w) (trace w ++ [EvPermute v c u])).

Lemma permutationLoop_keeps
    (recurse : Simulation -> Ref -> list FreeCard -> M Simulation)
    (gameState : Ref) (condition : BaseCondition) (usedCards : list FreeCard) :
  (forall s g u w s' w', Inv s w -> recurse s g u w = Some (s', w') -> Inv s' w') ->
  forall freeCards sim w sim' w',
    Inv sim w ->
    permutationLoop recurse gameState condition usedCards freeCards sim w
    = Some (sim', w') ->
    Inv sim' w'.
Proof using Inv_record.
  intros Hrec. induction freeCards as [|card rest IH]; intros sim w sim' w' HI Hrun.
  - injection Hrun as <- <-. exact HI.
  - simpl in Hrun. unfold bind at 1, read at 1 in Hrun.
    destruct (freeCardIsUsable (store w gameState) card); simpl in Hrun.
    2: { eapply IH; eassumption. }
    destruct (loop_body_run gameState condition card sim
                (fun branch sim1 =>
                   if result sim1 then ret sim1
                   else sim2 <- recurse sim1 (b_gameState branch) (usedCards ++ [card]) ;;
                        permutationLoop recurse gameState condition usedCards rest sim2)
                w) as (w4 & Heq & Hnext & Hcell & Hframe & Htrace).
    pose proof (eq_trans (eq_sym Heq) Hrun) as Hk. clear Heq Hrun. simpl in Hk.
    set (ran := mkBranch (S (next w)) _ condition) in *.
    assert (HI1 : Inv (mkSimulation (s_gameState sim) (record (s_branches sim) ran)
                                    (s_conditions sim)) w4).
    { apply (Inv_record sim w w4 ran HI).
      - simpl. lia.
      - exact Hframe.
      - unfold verdictOf. simpl. rewrite Hcell. reflexivity.
      - simpl. rewrite Hcell. exact Htrace. }
    destruct (result _).
    + injection Hk as <- <-. exact HI1.
    + unfold bind in Hk.
      destruct (recurse _ (S (next w)) (usedCards ++ [card]) w4)
        as [[sim2 w5]|] eqn:Hr; [|discriminate].
      eapply IH; [|exact Hk]. eapply Hrec; eassumption.
Qed.

Lemma generateFreeCardPermutations_keeps (fuel : nat) :
  forall sim gameState condition usedCards w sim' w',
    Inv sim w ->
    generateFreeCardPermutations fuel sim gameState condition usedCards w
    = Some (sim', w') ->
    Inv sim' w'.
Proof using Inv_record Inv_enter.
  induction fuel as [|fuel IH];
    intros sim gameState condition usedCards w sim' w' HI Hrun.
  - discriminate.
  - simpl in Hrun. unfold bind at 1, read at 1 in Hrun.
    unfold bind at 1, emit at 1 in Hrun.
    set (w1 := mkWorld _ _ _) in Hrun.
    assert (HI1 : Inv sim w1) by apply Inv_enter, HI.
    destruct (candidates (store w gameState) usedCards) as [|c0 cs].
    + injection Hrun as <- <-. exact HI1.
    + refine (permutationLoop_keeps _ _ _ _ _ _ _ _ _ _ HI1 Hrun).
      intros s g u w0 s' w0' Hs Hr. eapply IH; eassumption.
Qed.

(** The baseline branch owns the cell [next w], a copy of the simulation's
    game state. *)
Lemma baseline_cell {A} sim condition (k : Simulation -> M A) (w : World) :
  let v := clone (store w (s_gameState sim)) in
  let verdict := evaluateCondition condition (hand v) (deckList v) in
  exists w2,
    (branch <- SimulationBranch_new (s_gameState sim) condition ;;
     sim1 <- runBranch sim branch ;;
     k sim1) w
    = k (mkSimulation (s_gameState sim)
           (record (s_branches sim) (mkBranch (next w) verdict condition))
           (s_conditions sim))
        w2 /\
    next w2 = S (next w) /\
    store w2 (next w) = v /\
    (forall r, r < next w -> store w2 r = store w r) /\
    trace w2 = trace w ++ [EvEvaluate condition (hand v) (deckList v)].
Proof.
  intros v verdict. eexists. split.
  - unfold bind, deepCopy, SimulationBranch_new, runBranch,
      SimulationBranch_run, read, alloc, emit, ret, bind. simpl.
    rewrite !Nat.eqb_refl. reflexivity.
  - simpl. rewrite Nat.eqb_refl. repeat split; auto.
    intros r Hr. destruct (Nat.eqb_spec r (next w)); [lia|reflexivity].
Qed.

Lemma iterateConditions_keeps (fuel : nat) :
  forall conditions sim w sim' w',
    Inv sim w ->
    iterateConditions fuel conditions sim w = Some (sim', w') ->
    Inv sim' w'.
Proof using Inv_record Inv_enter.
  induction conditions as [|condition rest IH]; intros sim w sim' w' HI Hrun.
  - injection Hrun as <- <-. exact HI.
  - simpl in Hrun.
    destruct (baseline_cell sim condition
                (fun sim1 =>
                   if result sim1 then iterateConditions fuel rest sim1
                   else sim2 <- generateFreeCardPermutations fuel sim1
                                  (s_gameState sim1) condition [] ;;
                        iterateConditions fuel rest sim2)
                w) as (w2 & Heq & Hnext & Hcell & Hframe & Htrace).
    pose proof (eq_trans (eq_sym Heq) Hrun) as Hk. clear Heq Hrun. simpl in Hk.
    set (ran := mkBranch (next w) _ condition) in *.
    assert (HI1 : Inv (mkSimulation (s_gameState sim) (record (s_branches sim) ran)
                                    (s_conditions sim)) w2).
    { apply (Inv_record sim w w2 ran HI).
      - simpl. lia.
      - exact Hframe.
      - unfold verdictOf. simpl. rewrite Hcell. reflexivity.
      - simpl. rewrite Hcell. exact Htrace. }
    destruct (result _).
    + eapply IH; eassumption.
    + unfold bind in Hk.
      destruct (generateFreeCardPermutations fuel _ (s_gameState sim) condition [] w2)
        as [[sim2 w3]|] eqn:Hg; [|discriminate].
      eapply IH; [|exact Hk].
      eapply generateFreeCardPermutations_keeps; eassumption.
Qed.

End Keeps.

(** *** The branch mapping that [iterate] builds *)

Lemma wellFiled_record sim w w' b :
  wellFiled sim w ->
  next w <= b_gameState b < next w' ->
  (forall r, r < next w -> store w' r = store w r) ->
  b_result b = verdictOf w' b ->
  wellFiled (mkSimulation (s_gameState sim) (record (s_branches sim) b)
                          (s_conditions sim)) w'.
Proof.
  intros [Hnd Hall] Hb Hframe Hres. split; simpl.
  - now apply record_keys_distinct.
  - assert (Hold : forall c bs x,
               map_get cond_same (s_branches sim) c = Some bs -> In x bs ->
               b_condition x = c /\ b_gameState x < next w' /\
               b_result x = verdictOf w' x).
    { intros c bs x Hg Hx. destruct (Hall c bs Hg) as [_ Hbs].
      destruct (Hbs x Hx) as (Hc & Hlt & Hv). repeat split; [exact Hc|lia|].
      rewrite Hv. unfold verdictOf. now rewrite Hframe. }
    intros c bs Hg. destruct (cond_same c (b_condition b)) as [->|Hne].
    + rewrite record_get_same in Hg. injection Hg as <-. split.
      * intros H. apply app_eq_nil in H. destruct H as [_ H]. discriminate.
      * intros x Hx. apply in_app_or in Hx. destruct Hx as [Hx|[<-|[]]].
        -- unfold branchesOf in Hx.
           destruct (map_get cond_same (s_branches sim) (b_condition b)) eqn:Hgo;
             [|destruct Hx].
           exact (Hold _ _ x Hgo Hx).
        -- repeat split; [lia|exact Hres].
    + rewrite record_get_other in Hg by assumption.
      destruct (Hall c bs Hg) as [Hne' _]. split; [exact Hne'|].
      intros x Hx. exact (Hold _ _ x Hg Hx).
Qed.

(** X1. [iterate] keeps the branch mapping well filed: after a completed
    run no condition has two entries, no entry is empty, every branch is
    found under its own condition and holds the verdict of the evaluator on
    the game state it owns at the end of the run. *)
Theorem iterate_keeps_mapping_well_filed fuel sim w sim' w' :
  wellFiled sim w ->
  iterate fuel sim w = Some (sim', w') ->
  NoDup (map fst (s_branches sim')) /\
  forall c bs, In (c, bs) (s_branches sim') ->
    map_get cond_same (s_branches sim') c = Some bs /\
    bs <> [] /\
    forall b, In b bs -> b_condition b = c /\ b_result b = verdictOf w' b.
Proof.
  intros Hwf Hrun.
  assert (Hwf' : wellFiled sim' w').
  { refine (iterateConditions_keeps wellFiled _ _ fuel _ _ _ _ _ Hwf Hrun).
    - intros s w0 w0' b HI Hb Hframe Hres _. now apply wellFiled_record with w0.
    - intros s w0 v c u HI. exact HI. }
  destruct Hwf' as [Hnd Hall]. split; [exact Hnd|].
  intros c bs Hin. pose proof (map_get_of_entry _ _ _ Hnd Hin) as Hg.
  split; [exact Hg|]. destruct (Hall c bs Hg) as [Hne Hbs]. split; [exact Hne|].
  intros b Hb. destruct (Hbs b Hb) as (Hc & _ & Hv). split; assumption.
Qed.

(** *** Calls of the evaluator *)

Lemma evaluations_snoc_evaluate evs c h d :
  evaluations (evs ++ [EvEvaluate c h d]) = S (evaluations evs).
Proof.
  unfold evaluations. rewrite filter_app, length_app. simpl. lia.
Qed.

Lemma evaluations_snoc_permute evs v c u :
  evaluations (evs ++ [EvPermute v c u]) = evaluations evs.
Proof.
  unfold evaluations. rewrite filter_app, length_app. simpl. lia.
Qed.

(** X2. [iterate] calls the evaluator once for every branch it records and
    never otherwise: the calls of the evaluator and the recorded branches
    grow by the same number. *)
Theorem iterate_evaluates_once_per_branch fuel sim w sim' w' :
  iterate fuel sim w = Some (sim', w') ->
  evaluations (trace w') + length (flatBranches (s_branches sim))
  = evaluations (trace w) + length (flatBranches (s_branches sim')).
Proof.
  intros Hrun.
  refine (iterateConditions_keeps
            (fun s w0 => evaluations (trace w0) + length (flatBranches (s_branches sim))
                         = evaluations (trace w) + length (flatBranches (s_branches s)))
            _ _ fuel _ _ _ _ _ eq_refl Hrun).
  - intros s w0 w0' b HI _ _ _ Htr. simpl.
    rewrite Htr, evaluations_snoc_evaluate, flat_record_length. lia.
  - intros s w0 v c u HI. simpl. now rewrite evaluations_snoc_permute.
Qed.

(** *** The orders that the search explores *)

(** X3. Every call of the search is made for the condition searched, on the
    game state reached by using the cards of its [usedCards] in their order
    from the starting state, and each of these cards was a candidate when
    it was used. *)
Theorem search_calls_are_playable_orders
    fuel sim gameState condition w sim' w' :
  gameState < next w ->
  generateFreeCardPermutations fuel sim gameState condition [] w
  = Some (sim', w') ->
  exists calls,
    trace w' = trace w ++ calls /\
    forall v c u, In (EvPermute v c u) calls ->
      c = condition /\
      usableOrder (store w gameState) [] u = true /\
      v = afterOrder (store w gameState) u.
Proof.
  intros Hgs Hrun. set (v0 := store w gameState).
  apply (generateFreeCardPermutations_spec
           (fun v u => usableOrder v0 [] u = true /\ v = afterOrder v0 u))
    in Hrun; [|
      |exact Hgs|split; reflexivity].
  - destruct Hrun as (_ & evs & Htr & Hevs).
    eexists. split; [exact Htr|]. intros v c u [Heq|Hin].
    + injection Heq as <- <- <-. repeat split.
    + rewrite Forall_forall in Hevs.
      destruct (Hevs _ Hin) as (Hc & HP & _). tauto.
  - intros v u card [Hu ->] Hc. split.
    + rewrite usableOrder_snoc, Hu. simpl. now apply includes_In.
    + now rewrite afterOrder_snoc.
Qed.

Lemma advances_keeps_branch s w s' w' c b :
  advances s w s' w' ->
  In b (branchesOf (s_branches s) c) -> b_gameState b < next w ->
  In b (branchesOf (s_branches s') c) /\ b_gameState b < next w' /\
  store w' (b_gameState b) = store w (b_gameState b).
Proof.
  intros Ha Hb Hlt. destruct (adv_branches _ _ _ _ Ha c) as (more & -> & _).
  pose proof (adv_next _ _ _ _ Ha). repeat split.
  - apply in_or_app. now left.
  - lia.
  - now apply (adv_store _ _ _ _ Ha).
Qed.

Lemma search_advances fuel sim gameState condition usedCards w sim' w' :
  gameState < next w ->
  generateFreeCardPermutations fuel sim gameState condition usedCards w
  = Some (sim', w') ->
  advances sim w sim' w' /\
  exists evs, trace w' = trace w ++ EvPermute (store w gameState) condition usedCards :: evs.
Proof.
  intros Hgs Hrun.
  apply (generateFreeCardPermutations_spec (fun _ _ => True)) in Hrun;
    [|auto|exact Hgs|exact I].
  destruct Hrun as (Ha & evs & Htr & _). eauto.
Qed.

Lemma explored_later condition s w s' w' v u :
  advances s w s' w' -> (exists evs, trace w' = trace w ++ evs) ->
  explored condition s w v u -> explored condition s' w' v u.
Proof.
  intros Ha (evs & Htr) [Hev (b & Hb & Hlt & Hst)]. split.
  - rewrite Htr. apply in_or_app. now left.
  - destruct (advances_keeps_branch _ _ _ _ _ _ Ha Hb Hlt) as (Hb' & Hlt' & Hst').
    exists b. repeat split; [exact Hb'|exact Hlt'|congruence].
Qed.

Lemma permutationLoop_explores (fuel : nat) (condition : BaseCondition) :
  (forall sim gameState usedCards w sim' w',
      gameState < next w ->
      generateFreeCardPermutations fuel sim gameState condition usedCards w
      = Some (sim', w') ->
      result sim' = false ->
      forall card rest,
        usableOrder (store w gameState) usedCards (card :: rest) = true ->
        explored condition sim' w' (afterOrder (store w gameState) (card :: rest))
                 (usedCards ++ card :: rest)) ->
  forall (gameState : Ref) usedCards v0 freeCards sim w sim' w',
    gameState < next w -> store w gameState = v0 ->
    Forall (fun card => In card (candidates v0 usedCards)) freeCards ->
    permutationLoop (fun s g u => generateFreeCardPermutations fuel s g condition u)
                    gameState condition usedCards freeCards sim w
    = Some (sim', w') ->
    result sim' = false ->
    forall card rest,
      In card freeCards ->
      usableOrder (applyFreeCard (clone (clone v0)) card) (usedCards ++ [card]) rest
      = true ->
      explored condition sim' w'
               (afterOrder (applyFreeCard (clone (clone v0)) card) rest)
               ((usedCards ++ [card]) ++ rest).
Proof.
  intros IHfuel gameState usedCards v0.
  induction freeCards as [|card0 tl IH];
    intros sim w sim' w' Hgs Hv Hcards Hrun Hfalse card rest Hin Husable.
  - destruct Hin.
  - pose proof (Forall_inv Hcards) as Hcand. simpl in Hcand.
    pose proof (Forall_inv_tail Hcards) as Htl.
    apply candidates_In in Hcand. destruct Hcand as (_ & Hus & _).
    simpl in Hrun. unfold bind at 1, read at 1 in Hrun. rewrite Hv, Hus in Hrun.
    simpl in Hrun.
    destruct (loop_body_run gameState condition card0 sim
                (fun branch sim1 =>
                   if result sim1 then ret sim1
                   else sim2 <- generateFreeCardPermutations fuel sim1
                                  (b_gameState branch) condition (usedCards ++ [card0]) ;;
                        permutationLoop
                          (fun s g u => generateFreeCardPermutations fuel s g condition u)
                          gameState condition usedCards tl sim2)
                w) as (w4 & Heq & Hnext & Hcell & Hframe & Htrace).
    pose proof (eq_trans (eq_sym Heq) Hrun) as Hk. clear Heq Hrun.
    rewrite Hv in Hcell, Hk. simpl in Hk.
    set (vc := applyFreeCard (clone (clone v0)) card0) in *.
    set (ran := mkBranch (S (next w)) _ condition) in *.
    set (sim1 := mkSimulation _ _ _) in *.
    destruct (result sim1) eqn:Hres1.
    { injection Hk as <- <-. congruence. }
    unfold bind in Hk.
    destruct (generateFreeCardPermutations fuel sim1 (S (next w)) condition
                (usedCards ++ [card0]) w4) as [[sim2 w5]|] eqn:Hchild;
      [|discriminate].
    assert (Hlt4 : S (next w) < next w4) by lia.
    destruct (search_advances _ _ _ _ _ _ _ _ Hlt4 Hchild) as (Ha2 & evc & Htr2).
    pose proof (adv_next _ _ _ _ Ha2) as Hn2.
    assert (Hgs5 : gameState < next w5) by lia.
    assert (Hv5 : store w5 gameState = v0).
    { rewrite (adv_store _ _ _ _ Ha2) by lia. rewrite Hframe by lia. exact Hv. }
    assert (Hrest : advances sim2 w5 sim' w' /\ exists evs, trace w' = trace w5 ++ evs).
    { apply (permutationLoop_spec (fun _ _ => True)) with (v0 := v0) in Hk; auto.
      - destruct Hk as (Ha & evs & Htr & _). eauto.
      - intros s g u w0 s' w0' Hg _ Hr.
        now apply (generateFreeCardPermutations_spec (fun _ _ => True)) in Hr.
      - eapply Forall_impl; [|exact Htl]. intros c Hc. apply candidates_In in Hc. tauto. }
    destruct Hrest as (Ha3 & Htr3).
    assert (Hfalse2 : result sim2 = false).
    { destruct (result sim2) eqn:H2; [|reflexivity].
      rewrite (adv_result _ _ _ _ Ha3 H2) in Hfalse. discriminate. }
    destruct Hin as [<-|Hin].
    + apply (explored_later condition sim2 w5); [exact Ha3|exact Htr3|].
      destruct rest as [|c1 rest1].
      * simpl. rewrite app_nil_r. split.
        -- rewrite Htr2, Hcell. apply in_or_app. right. now left.
        -- destruct (advances_keeps_branch sim1 w4 sim2 w5 condition ran Ha2)
             as (Hb & Hlt & Hst).
           ++ unfold sim1. simpl. rewrite record_branchesOf.
              apply in_or_app. right. simpl.
              destruct (cond_same condition condition); [now left|congruence].
           ++ simpl. lia.
           ++ exists ran. repeat split; [exact Hb|exact Hlt|].
              rewrite Hst. exact Hcell.
      * pose proof (IHfuel sim1 (S (next w)) (usedCards ++ [card0]) w4 sim2 w5
                      Hlt4 Hchild Hfalse2 c1 rest1) as Hex.
        rewrite Hcell in Hex. now apply Hex.
    + eapply IH; eauto.
Qed.

Lemma search_explores (fuel : nat) (condition : BaseCondition) :
  forall sim gameState usedCards w sim' w',
    gameState < next w ->
    generateFreeCardPermutations fuel sim gameState condition usedCards w
    = Some (sim', w') ->
    result sim' = false ->
    forall card rest,
      usableOrder (store w gameState) usedCards (card :: rest) = true ->
      explored condition sim' w' (afterOrder (store w gameState) (card :: rest))
               (usedCards ++ card :: rest).
Proof.
  induction fuel as [|fuel IH];
    intros sim gameState usedCards w sim' w' Hgs Hrun Hfalse card rest Husable.
  - discriminate.
  - simpl in Hrun. unfold bind at 1, read at 1 in Hrun.
    unfold bind at 1, emit at 1 in Hrun.
    set (w1 := mkWorld _ _ _) in Hrun.
    simpl in Husable. apply andb_true_iff in Husable.
    destruct Husable as [Hc Hrest]. apply includes_In in Hc.
    assert (Hloop :
      permutationLoop
        (fun s g u => generateFreeCardPermutations fuel s g condition u)
        gameState condition usedCards (candidates (store w gameState) usedCards)
        sim w1 = Some (sim', w')).
    { destruct (candidates (store w gameState) usedCards); [destruct Hc|exact Hrun]. }
    pose proof (permutationLoop_explores fuel condition IH gameState usedCards
                  (store w gameState) _ sim w1 sim' w' Hgs eq_refl
                  (proj2 (Forall_forall _ _) (fun c H => H)) Hloop Hfalse
                  card rest Hc Hrest) as Hex.
    replace (usedCards ++ card :: rest) with ((usedCards ++ [card]) ++ rest)
      by now rewrite <- app_assoc.
    exact Hex.
Qed.


(** *** Baselines only *)

Lemma baselineBranches_length n v conditions :
  length (baselineBranches n v conditions) = length conditions.
Proof.
  revert n. induction conditions as [|c rest IH]; intros n; simpl; [|rewrite IH];
    reflexivity.
Qed.

Lemma baselineBranches_cells n v conditions b :
  In b (baselineBranches n v conditions) ->
  n <= b_gameState b < n + length conditions.
Proof.
  revert n. induction conditions as [|c rest IH]; intros n; simpl; [intros []|].
  intros [<-|Hin]; [simpl; lia|]. apply IH in Hin. lia.
Qed.

Lemma evaluatorCalls_app evs evs' :
  evaluatorCalls (evs ++ evs') = evaluatorCalls evs ++ evaluatorCalls evs'.
Proof. apply filter_app. Qed.

Lemma evaluatorCalls_all evs :
  (forall v c u, ~ In (EvPermute v c u) evs) -> evaluatorCalls evs = evs.
Proof.
  induction evs as [|e evs IH]; intros Hno; [reflexivity|].
  destruct e as [c h d|v c u]; simpl.
  - f_equal. apply IH. intros v c' u Hin. apply (Hno v c' u). now right.
  - exfalso. apply (Hno v c u). now left.
Qed.

Lemma evaluations_calls evs : evaluations evs = length (evaluatorCalls evs).
Proof. reflexivity. Qed.

(** [iterate] on conditions for which the search has nothing to do: a
    success is on record, or the game state offers no candidate and the
    budget allows one call.  The baseline branches are recorded and nothing
    else; the search is entered only while no success is on record. *)
Lemma iterateConditions_baselines (fuel : nat) :
  forall conditions sim w,
    s_gameState sim < next w ->
    result sim = true \/
    (candidates (store w (s_gameState sim)) [] = [] /\ fuel <> 0) ->
    exists w' evs,
      iterateConditions fuel conditions sim w
      = Some (mkSimulation (s_gameState sim)
                (fold_left record
                   (baselineBranches (next w) (store w (s_gameState sim)) conditions)
                   (s_branches sim))
                (s_conditions sim), w') /\
      next w' = next w + length conditions /\
      (forall r, r < next w -> store w' r = store w r) /\
      (forall r, next w <= r < next w' ->
         store w' r = clone (store w (s_gameState sim))) /\
      trace w' = trace w ++ evs /\
      evaluatorCalls evs = baselineEvaluations (store w (s_gameState sim)) conditions /\
      forall v c u, In (EvPermute v c u) evs ->
        result sim = false /\ v = store w (s_gameState sim) /\ u = [] /\
        In c conditions.
Proof.
  induction conditions as [|condition rest IH]; intros sim w Hgs Hquiet.
  - exists w, []. destruct sim. simpl. rewrite app_nil_r, Nat.add_0_r.
    repeat split; auto; try lia; try contradiction.
  - simpl iterateConditions.
    destruct (baseline_cell sim condition
                (fun sim1 =>
                   if result sim1 then iterateConditions fuel rest sim1
                   else sim2 <- generateFreeCardPermutations fuel sim1
                                  (s_gameState sim1) condition [] ;;
                        iterateConditions fuel rest sim2)
                w) as (w2 & Heq & Hnext & Hcell & Hframe & Htrace).
    cbv zeta in Heq, Hcell, Htrace. rewrite Heq. clear Heq.
    set (v := store w (s_gameState sim)) in *.
    set (b0 := mkBranch (next w) _ condition).
    set (sim1 := mkSimulation _ _ _).
    assert (Hsame : store w2 (s_gameState sim) = v) by (apply Hframe; exact Hgs).
    assert (Hgs2 : s_gameState sim1 < next w2) by (simpl; lia).
    assert (Hstep : forall w3 evs0,
               next w3 = next w2 ->
               (forall r, store w3 r = store w2 r) ->
               trace w3 = trace w2 ++ evs0 ->
               evaluatorCalls evs0 = [] ->
               (forall v' c u, In (EvPermute v' c u) evs0 ->
                  result sim = false /\ v' = v /\ u = [] /\ c = condition) ->
               (result sim1 = true \/ (candidates v [] = [] /\ fuel <> 0)) ->
               exists w' evs,
                 iterateConditions fuel rest sim1 w3
                 = Some (mkSimulation (s_gameState sim)
                           (fold_left record
                              (baselineBranches (next w) v (condition :: rest))
                              (s_branches sim))
                           (s_conditions sim), w') /\
                 next w' = next w + length (condition :: rest) /\
                 (forall r, r < next w -> store w' r = store w r) /\
                 (forall r, next w <= r < next w' -> store w' r = clone v) /\
                 trace w' = trace w ++ evs /\
                 evaluatorCalls evs = baselineEvaluations v (condition :: rest) /\
                 forall v' c u, In (EvPermute v' c u) evs ->
                   result sim = false /\ v' = v /\ u = [] /\
                   In c (condition :: rest)).
    { intros w3 evs0 Hn3 Hs3 Ht3 Hcalls Hperm Hq.
      destruct (IH sim1 w3) as (w' & evs & Hrun & Hn & Hfr & Hcells & Htr & Hev & Hp).
      { simpl. lia. }
      { simpl. rewrite Hs3, Hsame. exact Hq. }
      simpl s_gameState in *. rewrite Hs3, Hsame, Hn3, Hnext in *.
      exists w', (EvEvaluate condition (hand (clone v)) (deckList (clone v))
                  :: evs0 ++ evs).
      split; [exact Hrun|]. split; [simpl; lia|]. split.
      { intros r Hr. rewrite Hfr by lia. rewrite Hs3. now apply Hframe. }
      split.
      { intros r Hr. destruct (Nat.eq_dec r (next w)) as [->|Hne].
        - rewrite Hfr by lia. rewrite Hs3. exact Hcell.
        - apply Hcells. lia. }
      split.
      { rewrite Htr, Ht3, Htrace. rewrite <- !app_assoc. reflexivity. }
      split.
      { simpl. rewrite evaluatorCalls_app, Hcalls, Hev. reflexivity. }
      intros v' c u [Heq|Hin]; [discriminate Heq|].
      apply in_app_or in Hin. destruct Hin as [Hin|Hin].
      - destruct (Hperm _ _ _ Hin) as (Hr & Hv & Hu & ->).
        repeat split; auto. now left.
      - destruct (Hp _ _ _ Hin) as (Hr & Hv & Hu & Hc).
        repeat split; auto.
        + destruct (result sim) eqn:Hres; [|reflexivity].
          unfold sim1 in Hr. now rewrite result_record in Hr.
        + now right. }
    destruct (result sim1) eqn:Hres1.
    + apply (Hstep w2 []); auto.
      * now rewrite app_nil_r.
      * intros v' c u [].
    + destruct Hquiet as [Hres|[Hnone Hfuel]].
      { unfold sim1 in Hres1. rewrite result_record in Hres1 by exact Hres.
        discriminate. }
      destruct fuel as [|fuel']; [congruence|].
      unfold bind at 1. simpl generateFreeCardPermutations.
      unfold bind at 1, read at 1. unfold bind at 1, emit at 1.
      simpl s_gameState. rewrite Hsame. fold v in Hnone. rewrite Hnone.
      unfold ret. set (w3 := mkWorld _ _ _).
      apply (Hstep w3 [EvPermute v condition []]); auto.
      * intros v' c u [Heq|[]]. injection Heq as <- <- <-.
        repeat split; auto.
        destruct (result sim) eqn:Hres; [|reflexivity].
        unfold sim1 in Hres1. now rewrite result_record in Hres1.
Qed.

(** *** Successes *)

(** X5. When the baseline branch of the first condition succeeds,
    [iterate()] returns whatever the recursion budget and never enters the
    search: under every condition it appends the baseline branches of the
    occurrences of that condition in the list and nothing else, each on a
    copy of the simulation's game state, and the evaluator is called once
    for each condition of the list, in order. *)
Theorem iterate_records_baselines_only_after_success fuel sim w condition rest :
  let v := store w (s_gameState sim) in
  let baselines := baselineBranches (next w) v (s_conditions sim) in
  s_gameState sim < next w ->
  s_conditions sim = condition :: rest ->
  evaluateCondition condition (hand (clone v)) (deckList (clone v)) = true ->
  exists sim' w',
    iterate fuel sim w = Some (sim', w') /\
    result sim' = true /\
    (forall c,
        branchesOf (s_branches sim') c
        = branchesOf (s_branches sim) c
          ++ filter (fun b => if cond_same c (b_condition b) then true else false)
                    baselines) /\
    length (flatBranches (s_branches sim'))
    = length (flatBranches (s_branches sim)) + length (s_conditions sim) /\
    (forall b, In b baselines -> store w' (b_gameState b) = clone v) /\
    trace w' = trace w ++ baselineEvaluations v (s_conditions sim).
Proof.
  intros v baselines Hgs Hconds Hverdict. unfold iterate.
  unfold baselines. rewrite Hconds. simpl iterateConditions.
  simpl baselineBranches. fold v.
  destruct (baseline_cell sim condition
              (fun sim1 =>
                 if result sim1 then iterateConditions fuel rest sim1
                 else sim2 <- generateFreeCardPermutations fuel sim1
                                (s_gameState sim1) condition [] ;;
                      iterateConditions fuel rest sim2)
              w) as (w2 & Heq & Hnext & Hcell & Hframe & Htrace).
  cbv zeta in Heq, Hcell, Htrace. fold v in Heq, Hcell, Htrace.
  rewrite Heq. clear Heq. rewrite Hverdict in *.
  set (b0 := mkBranch (next w) true condition).
  set (sim1 := mkSimulation _ _ _).
  assert (Hres : result sim1 = true).
  { apply (result_intro sim1 condition
             (branchesOf (s_branches sim) condition ++ [b0]) b0).
    - apply map_get_In. unfold sim1. simpl. apply (record_get_same _ b0).
    - apply in_or_app. right. now left.
    - reflexivity. }
  rewrite Hres.
  assert (Hsame : store w2 (s_gameState sim) = v) by (apply Hframe; exact Hgs).
  destruct (iterateConditions_baselines fuel rest sim1 w2)
    as (w' & evs & Hrun & Hn & Hfr & Hcells & Htr & Hev & Hp).
  { simpl. lia. }
  { now left. }
  assert (Hgs2 : s_gameState sim1 < next w2) by (simpl; lia).
  pose proof (iterateConditions_advances fuel rest sim1 w2 _ _ Hgs2 Hrun)
    as [Hadv _].
  pose proof (adv_result _ _ _ _ Hadv Hres) as Hres'.
  simpl s_gameState in *. rewrite Hsame, Hnext in *.
  eexists _, w'. split; [exact Hrun|].
  simpl s_branches.
  change (fold_left record (baselineBranches (S (next w)) v rest)
                    (record (s_branches sim) b0))
    with (fold_left record (b0 :: baselineBranches (S (next w)) v rest)
                    (s_branches sim)).
  split; [exact Hres'|].
  split; [intros c; apply fold_record_branchesOf|].
  split.
  { rewrite fold_record_flat_length. simpl. rewrite baselineBranches_length. reflexivity. }
  split.
  { intros b [<-|Hb].
    - simpl. rewrite Hfr by lia. exact Hcell.
    - apply baselineBranches_cells in Hb. apply Hcells. lia. }
  rewrite Htr, Htrace, <- app_assoc. simpl. f_equal. f_equal.
  rewrite <- Hev. symmetry. apply evaluatorCalls_all.
  intros v' c u Hin. destruct (Hp _ _ _ Hin) as (Hfalse & _). congruence.
Qed.

(** X6. When the first candidate of a call makes the condition true, the
    search records the branch of that card alone and returns at once: one
    more branch, [result] true, no recursive call. *)
Theorem search_ends_at_first_success
    fuel sim gameState condition usedCards w card others :
  let v := applyFreeCard (clone (clone (store w gameState))) card in
  candidates (store w gameState) usedCards = card :: others ->
  evaluateCondition condition (hand v) (deckList v) = true ->
  exists sim' w',
    generateFreeCardPermutations (S fuel) sim gameState condition usedCards w
    = Some (sim', w') /\
    result sim' = true /\
    branchesOf (s_branches sim') condition
    = branchesOf (s_branches sim) condition ++ [mkBranch (S (next w)) true condition] /\
    store w' (S (next w)) = v /\
    trace w' = trace w ++ [EvPermute (store w gameState) condition usedCards;
                           EvEvaluate condition (hand v) (deckList v)].
Proof.
  intros v Hcand Hverdict.
  assert (Hus : freeCardIsUsable (store w gameState) card = true).
  { assert (Hin : In card (candidates (store w gameState) usedCards))
      by (rewrite Hcand; now left).
    apply candidates_In in Hin. tauto. }
  simpl. unfold bind at 1, read at 1. unfold bind at 1, emit at 1.
  rewrite Hcand. simpl. unfold bind at 1, read at 1. simpl. rewrite Hus. simpl.
  set (w1 := mkWorld _ _ _).
  destruct (loop_body_run gameState condition card sim
              (fun branch sim1 =>
                 if result sim1 then ret sim1
                 else sim2 <- generateFreeCardPermutations fuel sim1
                                (b_gameState branch) condition (usedCards ++ [card]) ;;
                      permutationLoop
                        (fun s g u => generateFreeCardPermutations fuel s g condition u)
                        gameState condition usedCards others sim2)
              w1) as (w4 & Heq & Hnext & Hcell & Hframe & Htrace).
  simpl in Heq. rewrite Heq. clear Heq. simpl in Hcell, Htrace.
  fold v in Hcell, Htrace |- *. rewrite Hverdict in *.
  set (ran := mkBranch (S (next w)) true condition).
  set (sim1 := mkSimulation _ _ _).
  assert (Hres : result sim1 = true).
  { apply (result_intro sim1 condition
             (branchesOf (s_branches sim) condition ++ [ran]) ran).
    - apply map_get_In. unfold sim1. simpl. apply (record_get_same _ ran).
    - apply in_or_app. right. now left.
    - reflexivity. }
  rewrite Hres. exists sim1, w4. split; [reflexivity|]. split; [exact Hres|].
  split.
  { unfold sim1. simpl. rewrite record_branchesOf. simpl.
    destruct (cond_same condition condition); [reflexivity|congruence]. }
  split; [exact Hcell|]. rewrite Htrace, <- app_assoc. reflexivity.
Qed.

(** *** Hands without a usable free card *)

(** X7. When the simulation's game state offers no candidate, [iterate()]
    returns on any budget of at least one call: under every condition it
    appends the baseline branches of the occurrences of that condition in
    the list and nothing else, each on a copy of the simulation's game
    state; the evaluator is called once for each condition of the list, in
    order, and the search is only entered at its root, where it finds
    nothing to play. *)
Theorem iterate_without_candidates_records_baselines fuel sim w :
  let v := store w (s_gameState sim) in
  let baselines := baselineBranches (next w) v (s_conditions sim) in
  s_gameState sim < next w ->
  candidates v [] = [] ->
  exists sim' w' evs,
    iterate (S fuel) sim w = Some (sim', w') /\
    (forall c,
        branchesOf (s_branches sim') c
        = branchesOf (s_branches sim) c
          ++ filter (fun b => if cond_same c (b_condition b) then true else false)
                    baselines) /\
    length (flatBranches (s_branches sim'))
    = length (flatBranches (s_branches sim)) + length (s_conditions sim) /\
    (forall b, In b baselines -> store w' (b_gameState b) = clone v) /\
    trace w' = trace w ++ evs /\
    evaluatorCalls evs = baselineEvaluations v (s_conditions sim) /\
    evaluations (trace w') = evaluations (trace w) + length (s_conditions sim) /\
    forall v' c u, In (EvPermute v' c u) evs ->
      v' = v /\ u = [] /\ In c (s_conditions sim).
Proof.
  intros v baselines Hgs Hnone. unfold iterate.
  destruct (iterateConditions_baselines (S fuel) (s_conditions sim) sim w Hgs)
    as (w' & evs & Hrun & Hn & Hfr & Hcells & Htr & Hev & Hp).
  { right. split; [exact Hnone|discriminate]. }
  fold v in Hrun, Hcells, Hev, Hp. fold baselines in Hrun.
  eexists _, w', evs. split; [exact Hrun|]. simpl s_branches.
  split; [intros c; apply fold_record_branchesOf|].
  split.
  { rewrite fold_record_flat_length. unfold baselines.
    rewrite baselineBranches_length. reflexivity. }
  split.
  { intros b Hb. apply baselineBranches_cells in Hb. apply Hcells. lia. }
  split; [exact Htr|]. split; [exact Hev|]. split.
  { rewrite Htr. unfold evaluations. fold (evaluatorCalls (trace w ++ evs)).
    rewrite evaluatorCalls_app, length_app. fold (evaluatorCalls evs).
    rewrite Hev. unfold baselineEvaluations. rewrite length_map. reflexivity. }
  intros v' c u Hin. destruct (Hp _ _ _ Hin) as (_ & Hv & Hu & Hc). auto.
Qed.

(** *** The baseline game state *)

(** X8. A completed [iterate()] leaves the simulation with the game state
    and the conditions it had, the contents of this game state unchanged,
    and a [result] that was true still true. *)
Theorem iterate_leaves_baseline_untouched fuel sim w sim' w' :
  s_gameState sim < next w ->
  iterate fuel sim w = Some (sim', w') ->
  s_gameState sim' = s_gameState sim /\
  s_conditions sim' = s_conditions sim /\
  store w' (s_gameState sim') = store w (s_gameState sim) /\
  (result sim = true -> result sim' = true).
Proof.
  intros Hgs Hrun. apply iterateConditions_advances in Hrun; [|exact Hgs].
  destruct Hrun as ([N S0 G Cs B K R] & _).
  repeat split; auto. rewrite G. now apply S0.
Qed.

(** *** Termination of a whole simulation *)

Lemma iterateConditions_returns (k : nat) :
  (forall v card,
      In card (freeCardsInHand v) -> freeCardIsUsable v card = true ->
      incl (freeCardsInHand (applyFreeCard (clone (clone v)) card))
           (freeCardsInHand v)) ->
  forall conditions sim w,
    s_gameState sim < next w ->
    length (freeCardsInHand (store w (s_gameState sim))) <= k ->
    exists sim' w', iterateConditions (S k) conditions sim w = Some (sim', w').
Proof.
  intros Hnonew. induction conditions as [|condition rest IH]; intros sim w Hgs Hk.
  - exists sim, w. reflexivity.
  - simpl.
    destruct (baseline_cell sim condition
                (fun sim1 =>
                   if result sim1 then iterateConditions (S k) rest sim1
                   else sim2 <- generateFreeCardPermutations (S k) sim1
                                  (s_gameState sim1) condition [] ;;
                        iterateConditions (S k) rest sim2)
                w) as (w2 & Heq & Hnext & Hcell & Hframe & Htrace).
    simpl in Heq. rewrite Heq. clear Heq.
    set (sim1 := mkSimulation _ _ _).
    assert (Hsame : store w2 (s_gameState sim) = store w (s_gameState sim))
      by (apply Hframe; exact Hgs).
    destruct (result sim1).
    + apply IH; simpl; [lia|now rewrite Hsame].
    + set (F0 := freeCardsInHand (store w2 (s_gameState sim))).
      assert (H0 : within F0 (store w2 (s_gameState sim)) []).
      { repeat split; [constructor|intros x []|apply incl_refl]. }
      assert (Hgs2 : s_gameState sim < next w2) by lia.
      destruct (generateFreeCardPermutations_returns
                  (within F0) (within_step Hnonew F0) condition (length F0)
                  (within_room Hnonew F0)
                  (S k) sim1 (s_gameState sim) [] w2 Hgs2 H0) as (sim2 & w3 & Hrun).
      { unfold F0. rewrite Hsame. simpl. lia. }
      unfold bind at 1. change (s_gameState sim1) with (s_gameState sim).
      pose proof Hrun as Hrun'. simpl in Hrun'. rewrite Hrun'. clear Hrun'.
      apply search_advances in Hrun; [|exact Hgs2].
      destruct Hrun as ([N S0 G Cs B K R] & _).
      apply IH.
      * rewrite G. simpl. lia.
      * rewrite G. simpl. rewrite S0 by exact Hgs2. now rewrite Hsame.
Qed.

(** X9. When using a free card brings no free-card instance into the hand
    that was not there before, [runSimulation] on a game state with [k] free
    cards in hand returns within a recursion budget of [k + 1] nested calls;
    the simulation it returns has the conditions given and at least one
    branch for each of them, and the caller's game state is as it was. *)
Theorem runSimulation_returns gameState conditions w :
  (forall v card,
      In card (freeCardsInHand v) -> freeCardIsUsable v card = true ->
      incl (freeCardsInHand (applyFreeCard (clone (clone v)) card))
           (freeCardsInHand v)) ->
  gameState < next w ->
  let k := length (freeCardsInHand (clone (store w gameState))) in
  exists sim' w',
    runSimulation (S k) gameState conditions w = Some (sim', w') /\
    s_conditions sim' = conditions /\
    (forall c, In c conditions -> branchesOf (s_branches sim') c <> []) /\
    store w' gameState = store w gameState.
Proof.
  intros Hnonew Hgs k.
  unfold runSimulation, Simulation_new, deepCopy, iterate.
  unfold bind, read, alloc, ret. simpl.
  set (w1 := mkWorld _ _ _).
  set (sim := mkSimulation (next w) [] conditions).
  assert (Hown : store w1 (next w) = clone (store w gameState))
    by (unfold w1; simpl; now rewrite Nat.eqb_refl).
  destruct (iterateConditions_returns k Hnonew conditions sim w1)
    as (sim' & w' & Hrun).
  { unfold sim, w1. simpl. lia. }
  { change (length (freeCardsInHand (store w1 (next w))) <= k).
    rewrite Hown. unfold k. lia. }
  exists sim', w'. split; [exact Hrun|].
  apply iterateConditions_advances in Hrun; [|unfold sim, w1; simpl; lia].
  destruct Hrun as ([N S0 G Cs B K R] & Hall).
  split; [exact Cs|]. split; [exact Hall|].
  rewrite S0 by (unfold w1; simpl; lia).
  unfold w1. simpl. destruct (Nat.eqb_spec gameState (next w)); [lia|reflexivity].
Qed.

(** *** The accessor of the successes *)

(** X10. [successfulBranches] has one entry per entry of the branch mapping,
    in the same order and under the same condition; the entry holds the
    first recorded branch with [result == true], every branch recorded
    before it having failed, or none when no branch of that condition
    succeeded. *)
Theorem successfulBranches_first_success (sim : Simulation) :
  Forall2
    (fun entry out =>
       fst out = fst entry /\
       match snd out with
       | Some branch =>
           exists earlier later,
             snd entry = earlier ++ branch :: later /\
             b_result branch = true /\
             forall b, In b earlier -> b_result b = false
       | None => forall b, In b (snd entry) -> b_result b = false
       end)
    (s_branches sim) (successfulBranches sim).
Proof.
  unfold successfulBranches. induction (s_branches sim) as [|[c bs] m IH]; simpl.
  - constructor.
  - constructor; [|exact IH]. simpl. split; [reflexivity|].
    destruct (find _ bs) as [b|] eqn:Hf.
    + destruct (find_first _ _ _ Hf) as (pre & post & -> & Hb & Hpre).
      exists pre, post. repeat split; assumption.
    + intros x Hx. exact (find_absent _ _ Hf x Hx).
Qed.

(** *** Grouping by condition *)

Lemma decodedBranches_length (sbs : list SerialisedSimulationBranch) :
  forall n, length (decodedBranches n sbs) = length sbs.
Proof. induction sbs as [|sb rest IH]; intros n; simpl; [|rewrite IH]; reflexivity. Qed.

(** X11. Whatever condition objects the decoder returns, the simulation that
    [Simulation.deserialise] builds holds every decoded branch once: under a
    condition it has the decoded branches of that condition, in the order
    of the serialised branches, and nothing else. *)
Theorem deserialise_groups_branches_by_condition
    (ss : SerialisedSimulation) (w : World) :
  let branches :=
    decodedBranches (S (length (ss_conditions ss) + S (next w))) (ss_branches ss) in
  exists sim w',
    deserialise ss w = Some (sim, w') /\
    (forall c,
        branchesOf (s_branches sim) c
        = filter (fun b => if cond_same c (b_condition b) then true else false)
                 branches) /\
    length (flatBranches (s_branches sim)) = length (ss_branches ss).
Proof.
  intros branches. destruct (deserialise_eq ss w) as (w' & Heq & _).
  eexists _, w'. split; [exact Heq|]. simpl. fold branches. split.
  - intros c. now rewrite fold_record_branchesOf.
  - rewrite fold_record_flat_length. unfold branches.
    now rewrite decodedBranches_length.
Qed.

Lemma decodedConditions_stamps (l : list SerialisedCondition) :
  forall n c, In c (decodedConditions n l) ->
              exists k s, n <= k < n + length l /\ c = deserialiseCondition k s.
Proof.
  induction l as [|s rest IH]; intros n c; simpl; [intros []|].
  intros [<-|Hin].
  - exists n, s. split; [lia|reflexivity].
  - destruct (IH _ _ Hin) as (k & t & Hk & ->). exists k, t. split; [lia|reflexivity].
Qed.

(** X12. When the decoder returns a new condition object at every call, no
    condition of the [conditions] list of a deserialised simulation is a key
    of its branch mapping: looked up by these conditions, the simulation
    holds no branch. *)
Theorem deserialised_conditions_key_no_branch
    (ss : SerialisedSimulation) (w : World) sim w' :
  (forall n m s t, n <> m -> deserialiseCondition n s <> deserialiseCondition m t) ->
  deserialise ss w = Some (sim, w') ->
  forall c, In c (s_conditions sim) ->
    map_get cond_same (s_branches sim) c = None /\
    branchesOf (s_branches sim) c = [].
Proof.
  intros Hnew Hrun c Hc.
  destruct (deserialise_eq ss w) as (w0 & Heq & _).
  rewrite Heq in Hrun. injection Hrun as <- <-. simpl in *.
  assert (Hnone : map_get cond_same
                    (fold_left record
                       (decodedBranches (S (length (ss_conditions ss) + S (next w)))
                                        (ss_branches ss)) []) c = None).
  { rewrite fold_record_distinct;
      [|apply decodedBranches_distinct; exact Hnew|reflexivity].
    simpl. apply map_get_no_key. rewrite map_map. simpl.
    intros Hin.
    destruct (decodedBranches_stamps _ _ _ Hin) as (k & s & Hk & Heqk).
    destruct (decodedConditions_stamps _ _ _ Hc) as (k' & s' & Hk' & Heqk').
    rewrite Heqk' in Heqk. revert Heqk. apply Hnew. lia. }
  split; [exact Hnone|]. unfold branchesOf. now rewrite Hnone.
Qed.

(** *** The round trip from the serialised side *)

Lemma serialise_decodedConditions (l : list SerialisedCondition) :
  (forall n s, serialiseCondition (deserialiseCondition n s) = s) ->
  forall n, map serialiseCondition (decodedConditions n l) = l.
Proof.
  intros Hcond. induction l as [|s rest IH]; intros n; simpl; [reflexivity|].
  now rewrite Hcond, IH.
Qed.

Lemma serialise_decodedBranches (w' : World) (sbs : list SerialisedSimulationBranch) :
  (forall g, encodeGameState (clone (decodeGameState g)) = g) ->
  (forall n s, serialiseCondition (deserialiseCondition n s) = s) ->
  forall n,
    Forall2 (fun sb b =>
               store w' (b_gameState b) = clone (decodeGameState (sb_gameState sb)))
            sbs (decodedBranches n sbs) ->
    map (serialisedBranch w') (decodedBranches n sbs) = sbs.
Proof.
  intros Hstate Hcond. induction sbs as [|sb rest IH]; intros n Hall; simpl in *.
  - reflexivity.
  - inversion Hall as [|? ? ? ? Hhead Htail]; subst. simpl in Hhead.
    rewrite (IH _ Htail). unfold serialisedBranch at 1. simpl.
    rewrite Hhead, Hstate, Hcond. now destruct sb.
Qed.

(** X13. When encoding undoes decoding, for a copied game state and for a
    condition, and the decoder returns a new condition object at every call,
    serialising the simulation that [Simulation.deserialise] built gives the
    serialised simulation back: game state, conditions and branches, in
    their order. *)
Theorem serialise_deserialise_roundtrip (ss : SerialisedSimulation) (w : World) :
  (forall g, encodeGameState (clone (decodeGameState g)) = g) ->
  (forall n s, serialiseCondition (deserialiseCondition n s) = s) ->
  (forall n m s t, n <> m -> deserialiseCondition n s <> deserialiseCondition m t) ->
  exists sim w',
    deserialise ss w = Some (sim, w') /\
    serialise sim w' = Some (ss, w').
Proof.
  intros Hstate Hcond Hnew.
  destruct (deserialise_eq ss w) as (w' & Heq & _ & Hown & Hall).
  eexists _, w'. split; [exact Heq|]. rewrite serialise_eq. simpl.
  rewrite Hown, Hstate, (serialise_decodedConditions _ Hcond).
  rewrite fold_record_distinct;
    [|apply decodedBranches_distinct; exact Hnew|reflexivity].
  simpl. rewrite flatBranches_singletons.
  rewrite (serialise_decodedBranches _ _ Hstate Hcond _ Hall).
  now destruct ss.
Qed.

(** *** The result of a whole simulation *)

(** X14. After [runSimulation], [result] is true exactly when the
    simulation holds a branch whose own game state, as it is at the end of
    the run, meets the condition the branch is recorded under. *)
Theorem runSimulation_result_is_sound fuel gameState conditions w sim' w' :
  runSimulation fuel gameState conditions w = Some (sim', w') ->
  result sim' = true <->
  exists c b,
    In b (branchesOf (s_branches sim') c) /\ b_condition b = c /\
    evaluateCondition c (hand (store w' (b_gameState b)))
                      (deckList (store w' (b_gameState b))) = true.
Proof.
  unfold runSimulation, Simulation_new, deepCopy, iterate.
  unfold bind at 1, bind at 1, bind at 1, read, alloc, ret. simpl.
  set (w1 := mkWorld _ _ _). set (sim := mkSimulation (next w) [] conditions).
  intros Hrun.
  assert (Hwf : wellFiled sim w1).
  { split; [constructor|]. intros c bs Hg. discriminate Hg. }
  assert (Hwf' : wellFiled sim' w').
  { refine (iterateConditions_keeps wellFiled _ _ fuel _ _ _ _ _ Hwf Hrun).
    - intros s w0 w0' b HI Hb Hframe Hres _. now apply wellFiled_record with w0.
    - intros s w0 v c u HI. exact HI. }
  destruct Hwf' as [Hnd Hall]. split.
  - intros Hres. destruct (result_elim _ Hres) as (c & bs & b & Hin & Hb & Hwon).
    pose proof (map_get_of_entry _ _ _ Hnd Hin) as Hg.
    destruct (Hall c bs Hg) as [_ Hbs]. destruct (Hbs b Hb) as (Hc & _ & Hv).
    exists c, b. split; [unfold branchesOf; now rewrite Hg|]. split; [exact Hc|].
    unfold verdictOf in Hv. rewrite Hc in Hv. now rewrite <- Hv.
  - intros (c & b & Hb & Hc & Hmet). unfold branchesOf in Hb.
    destruct (map_get cond_same (s_branches sim') c) as [bs|] eqn:Hg; [|destruct Hb].
    destruct (Hall c bs Hg) as [_ Hbs]. destruct (Hbs b Hb) as (_ & _ & Hv).
    apply (result_intro sim' c bs b); [now apply map_get_In|exact Hb|].
    rewrite Hv. unfold verdictOf. now rewrite Hc.
Qed.

End EngineFacts.

(** ** The engine on the table *)
Module DuelFacts.

Import Duel.
Import String.StringSyntax.
Local Open Scope string_scope.
Local Open Scope list_scope.

Local Abbreviation permute p := (@EvPermute (table p)).
Local Abbreviation evaluate p := (@EvEvaluate (table p)).

(** *** The search *)

Lemma play_brings_no_new_free_card (v : Field) (card : Card) :
  In card (freeCards v) -> @freeCardIsUsable (table play) v card = true ->
  incl (freeCards (play v card)) (freeCards v).
Proof.
  intros _ _ x Hx. unfold freeCards, play, playCard in *. simpl in Hx.
  apply filter_In in Hx. destruct Hx as [Hx Hfree].
  apply in_remove in Hx. apply filter_In. split; [exact (proj1 Hx)|exact Hfree].
Qed.

(** A pot that draws from a deck without a free card: the pot is the only
    card that can be played, whatever the processor would do on other
    hands. *)
Lemma pot_over_cards_orders (order : list Card) :
  usableOrder (C := table playAndDraw) potOverCards [] order = true ->
  order = [] \/ order = [free1].
Proof.
  destruct order as [|c1 rest]; [now left|]. intros H. right.
  change (usableOrder (C := table playAndDraw) potOverCards [] (c1 :: rest))
    with (includes (C := table playAndDraw)
            (candidates (C := table playAndDraw) potOverCards []) c1
          && usableOrder (C := table playAndDraw)
               (playAndDraw potOverCards c1) [c1] rest) in H.
  apply andb_true_iff in H. destruct H as [H1 H2].
  apply (includes_In (C := table playAndDraw)) in H1.
  destruct H1 as [<-|[]].
  destruct rest as [|c2 rest]; [reflexivity|].
  change (usableOrder (C := table playAndDraw)
            (playAndDraw potOverCards free1) [free1] (c2 :: rest))
    with (includes (C := table playAndDraw) [] c2
          && usableOrder (C := table playAndDraw)
               (playAndDraw (playAndDraw potOverCards free1) c2)
               [free1; c2] rest) in H2.
  discriminate H2.
Qed.



(** Two pots of the same name are two instances: both are used along one
    path, and no call has an instance twice. *)
Lemma usedCards_hold_no_instance_twice_witness :
  0 < next (world0 play twoPots) /\ NoDup (@nil Card) /\
  exists sim' w',
    search play 3 (simOf play [wantsX]) 0 wantsX [] (world0 play twoPots)
    = Some (sim', w') /\
    (exists calls,
        trace w' = trace (world0 play twoPots) ++ calls /\
        In (permute play (store (world0 play twoPots) 0) wantsX []) calls /\
        forall v c u, In (permute play v c u) calls -> NoDup u) /\
    (forall v used card,
        In card (candidates (C := table play) v used) <->
        In card (freeCards v) /\ @freeCardIsUsable (table play) v card = true /\
        ~ In card used).
Proof.
  split; [simpl; lia|]. split; [constructor|].
  eexists _, _. split; [vm_compute; reflexivity|].
  eapply (usedCards_hold_no_instance_twice (C := table play)
            3 (simOf play [wantsX]) 0 wantsX [] (world0 play twoPots)).
  - simpl. lia.
  - constructor.
  - vm_compute. reflexivity.
Defined.

Lemma second_pot_is_a_candidate :
  card_name free2 = card_name free1 /\
  candidates (C := table play) twoPots [free1] = [free2].
Proof. split; reflexivity. Qed.

(** *** [iterate] *)

(** C1, on the code.  The hand holds card A and a pot that would draw card
    B.  The baseline branch of the first condition succeeds, so [result] is
    true from then on; [iterate()] nevertheless goes on to the second
    condition, evaluates and records its baseline branch, and only skips
    its free-card permutations. *)
Theorem iterate_goes_on_after_a_success :
  exists sim' w',
    run playAndDraw 5 (simOf playAndDraw [wantsA; wantsB])
        (world0 playAndDraw cardAndPot)
    = Some (sim', w') /\
    verdicts sim' = [(wantsA, [true]); (wantsB, [false])] /\
    trace w' = [evaluate playAndDraw wantsA [cardA; free1] [cardB];
                evaluate playAndDraw wantsB [cardA; free1] [cardB]].
Proof.
  eexists _, _. split; [vm_compute; reflexivity|]. split; reflexivity.
Qed.

(** After a success deep in the search, the loop one level up still records
    its next sibling before it looks at [result]: B is drawn by the second
    pot, and the branch of the second pot alone is recorded after it. *)
Lemma sibling_recorded_after_a_success :
  option_map (fun r => verdicts (fst r))
    (run playAndDraw 5 (simOf playAndDraw [wantsB])
         (world0 playAndDraw twoPotsOnDeck))
  = Some [(wantsB, [false; false; true; false])].
Proof. vm_compute. reflexivity. Qed.

Lemma iterate_records_and_only_appends_witness :
  s_gameState simWithBranch < next (world0 play cardAndPot) /\
  exists sim' w',
    run play 3 simWithBranch (world0 play cardAndPot) = Some (sim', w') /\
    (forall c, In c (s_conditions simWithBranch) ->
       exists branches,
         map_get condition_eq_dec (s_branches sim') c = Some branches /\
         branches <> []) /\
    (forall c branches,
       map_get condition_eq_dec (s_branches simWithBranch) c = Some branches ->
       exists appended,
         map_get condition_eq_dec (s_branches sim') c = Some (branches ++ appended)).
Proof.
  split; [simpl; lia|].
  eexists _, _. split; [vm_compute; reflexivity|].
  eapply (iterate_records_and_only_appends (C := table play)
            3 simWithBranch (world0 play cardAndPot)).
  - simpl. lia.
  - vm_compute. reflexivity.
Defined.

(** *** The constructors *)

Lemma constructors_isolate_caller_state_witness :
  let w := world0 playAndDraw cardAndPot in
  0 < next w /\
  (exists branch w1,
      SimulationBranch_new (C := table playAndDraw) 0 wantsA w = Some (branch, w1) /\
      b_gameState branch <> 0 /\
      store w1 (b_gameState branch) = store w 0 /\
      b_condition branch = wantsA /\
      store w1 0 = store w 0 /\
      forall v w2, write (C := table playAndDraw) 0 v w1 = Some (tt, w2) ->
        store w2 (b_gameState branch) = store w1 (b_gameState branch)) /\
  (exists sim w1,
      Simulation_new (C := table playAndDraw) 0 [wantsA; wantsB] w = Some (sim, w1) /\
      s_gameState sim <> 0 /\
      store w1 (s_gameState sim) = store w 0 /\
      s_conditions sim = [wantsA; wantsB] /\
      store w1 0 = store w 0 /\
      (forall v w2, write (C := table playAndDraw) 0 v w1 = Some (tt, w2) ->
         store w2 (s_gameState sim) = store w1 (s_gameState sim)) /\
      forall sim' w',
        run playAndDraw 5 sim w1 = Some (sim', w') ->
        store w' 0 = store w 0 /\
        forall c b, In b (branchesOf (s_branches sim') c) ->
          b_gameState b <> 0 /\
          (forall ran w2, SimulationBranch_run b w' = Some (ran, w2) ->
             store w2 0 = store w 0) /\
          (forall card w2, processFreeCard b card w' = Some (tt, w2) ->
             store w2 0 = store w 0)).
Proof.
  intros w. split; [simpl; lia|].
  apply (constructors_isolate_caller_state (C := table playAndDraw)
           5 0 wantsA [wantsA; wantsB] w).
  simpl. lia.
Defined.

(** *** Serialisation *)

Lemma deserialise_files_each_branch_witness :
  let w := world0 play cardAndPot in
  let branches :=
    decodedBranches (C := table play) 4 (ss_branches twoBranchesOneContent) in
  NoDup (map b_condition branches) /\
  exists sim w',
    deserialise (C := table play) twoBranchesOneContent w = Some (sim, w') /\
    s_branches sim
    = [(mkCondition 5 "A", [@mkBranch (table play) 6 true (mkCondition 5 "A")]);
       (mkCondition 8 "A", [@mkBranch (table play) 9 false (mkCondition 8 "A")])] /\
    Forall2 (fun sb b =>
               b_result b = sb_result sb /\
               exists n, b_condition b
                         = @deserialiseCondition (table play) n (sb_condition sb))
            (ss_branches twoBranchesOneContent) branches.
Proof.
  intros w branches.
  assert (Hnd : NoDup (map b_condition branches)).
  { simpl. constructor; [|constructor; [intros []|constructor]].
    intros [H|[]]. discriminate H. }
  split; [exact Hnd|].
  exact (deserialise_files_each_branch_under_its_own_condition
           (C := table play) twoBranchesOneContent w Hnd).
Defined.

Lemma decoded_conditions_differ (n m : nat) (s t : String.string) :
  n <> m -> mkCondition n s <> mkCondition m t.
Proof. intros Hne [= H _]. contradiction. Qed.



(** A persisted success stays a success, whatever the hand would say now:
    the branch was persisted as won, its hand holds no card named X. *)
Lemma persisted_result_is_not_evaluated :
  exists branch w',
    SimulationBranch_deserialise (C := table play)
      (@mkSerialisedBranch (table play) true cardAndPot "X")
      (world0 play cardAndPot)
    = Some (branch, w') /\
    b_result branch = true /\
    holdsWanted (b_condition branch) (f_hand (store w' (b_gameState branch)))
                (f_deck (store w' (b_gameState branch))) = false /\
    trace w' = [].
Proof. eexists _, _. split; [vm_compute; reflexivity|]. repeat split. Qed.

(** Two failures on record, one entry in [failedBranches]. *)
Lemma failedBranches_is_not_the_full_list :
  failedBranches (C := table play) simOnRecord
  = [(wantsA, None); (wantsB, Some (@mkBranch (table play) 0 false wantsB))].
Proof. reflexivity. Qed.


(** *** Further properties, on the table *)

(** A simulation that holds a branch of cell 0 is taken through [iterate]:
    the mapping stays well filed. *)
Lemma iterate_keeps_mapping_well_filed_witness :
  let w := world0 play cardAndPot in
  wellFiled (C := table play) simWithBranch w /\
  exists sim' w',
    run play 3 simWithBranch w = Some (sim', w') /\
    NoDup (map fst (s_branches sim')) /\
    forall c bs, In (c, bs) (s_branches sim') ->
      map_get condition_eq_dec (s_branches sim') c = Some bs /\
      bs <> [] /\
      forall b, In b bs ->
        b_condition b = c /\ b_result b = verdictOf (C := table play) w' b.
Proof.
  intros w.
  assert (Hfiled : wellFiled (C := table play) simWithBranch w).
  { split.
    - simpl. constructor; [intros []|constructor].
    - intros c bs Hget. apply (map_get_In (C := table play)) in Hget.
      destruct Hget as [[= <- <-]|[]]. split; [discriminate|].
      intros b [<-|[]]. simpl. repeat split. lia. }
  split; [exact Hfiled|].
  eexists _, _. split; [vm_compute; reflexivity|].
  eapply (iterate_keeps_mapping_well_filed (C := table play) 3 simWithBranch w).
  - exact Hfiled.
  - vm_compute. reflexivity.
Defined.

Lemma iterate_evaluates_once_per_branch_witness :
  let sim := simOf play [wantsA; wantsX] in
  let w := world0 play cardAndPot in
  exists sim' w',
    run play 3 sim w = Some (sim', w') /\
    evaluations (trace w') + length (flatBranches (s_branches sim))
    = evaluations (trace w) + length (flatBranches (s_branches sim')).
Proof.
  intros sim w. eexists _, _. split; [vm_compute; reflexivity|].
  eapply (iterate_evaluates_once_per_branch (C := table play) 3 sim w).
  vm_compute. reflexivity.
Defined.

Lemma search_calls_are_playable_orders_witness :
  let w := world0 play twoPots in
  0 < next w /\
  exists sim' w',
    search play 3 (simOf play [wantsX]) 0 wantsX [] w = Some (sim', w') /\
    exists calls,
      trace w' = trace w ++ calls /\
      forall v c u, In (permute play v c u) calls ->
        c = wantsX /\
        usableOrder (C := table play) (store w 0) [] u = true /\
        v = afterOrder (C := table play) (store w 0) u.
Proof.
  intros w. split; [simpl; lia|].
  eexists _, _. split; [vm_compute; reflexivity|].
  eapply (search_calls_are_playable_orders (C := table play)
            3 (simOf play [wantsX]) 0 wantsX w).
  - simpl. lia.
  - vm_compute. reflexivity.
Defined.


(** Card A is in hand: without any recursion budget, [iterate()] returns
    with the baseline branch of each of the two conditions, each under its
    own condition. *)
Lemma iterate_records_baselines_only_witness :
  let sim := simOf playAndDraw [wantsA; wantsB] in
  let w := world0 playAndDraw cardAndPot in
  let baselines :=
    [@mkBranch (table playAndDraw) 1 true wantsA;
     @mkBranch (table playAndDraw) 2 false wantsB] in
  s_gameState sim < next w /\
  s_conditions sim = [wantsA; wantsB] /\
  holdsWanted wantsA (f_hand (store w 0)) (f_deck (store w 0)) = true /\
  exists sim' w',
    run playAndDraw 0 sim w = Some (sim', w') /\
    result sim' = true /\
    (forall c,
        branchesOf (s_branches sim') c
        = branchesOf (s_branches sim) c
          ++ filter (fun b => if @cond_same (table playAndDraw) c (b_condition b)
                              then true else false) baselines) /\
    length (flatBranches (s_branches sim'))
    = length (flatBranches (s_branches sim)) + length (s_conditions sim) /\
    (forall b, In b baselines -> store w' (b_gameState b) = store w 0) /\
    trace w' = trace w ++ [evaluate playAndDraw wantsA [cardA; free1] [cardB];
                           evaluate playAndDraw wantsB [cardA; free1] [cardB]].
Proof.
  intros sim w baselines. split; [simpl; lia|].
  split; [reflexivity|]. split; [reflexivity|].
  apply (iterate_records_baselines_only_after_success (C := table playAndDraw)
           0 sim w wantsA [wantsB]).
  - simpl. lia.
  - reflexivity.
  - reflexivity.
Defined.

(** The first pot draws card A: its branch is the only one recorded. *)
Lemma search_ends_at_first_success_witness :
  let sim := simOf playAndDraw [wantsA] in
  let w := world0 playAndDraw twoPotsOnDeck in
  let v := playAndDraw twoPotsOnDeck free1 in
  candidates (C := table playAndDraw) (store w 0) [] = [free1; free2] /\
  holdsWanted wantsA (f_hand v) (f_deck v) = true /\
  exists sim' w',
    search playAndDraw 1 sim 0 wantsA [] w = Some (sim', w') /\
    result sim' = true /\
    branchesOf (s_branches sim') wantsA
    = branchesOf (s_branches sim) wantsA
      ++ [@mkBranch (table playAndDraw) 2 true wantsA] /\
    store w' 2 = v /\
    trace w' = trace w ++ [permute playAndDraw (store w 0) wantsA [];
                           evaluate playAndDraw wantsA (f_hand v) (f_deck v)].
Proof.
  intros sim w v. split; [reflexivity|]. split; [reflexivity|].
  apply (search_ends_at_first_success (C := table playAndDraw)
           0 sim 0 wantsA [] w free1 [free2]); reflexivity.
Defined.

(** No pot in hand: the baseline branch of each condition, under its own
    condition, on a budget of one call. *)
Lemma iterate_without_candidates_witness :
  let sim := simOf play [wantsB; wantsX] in
  let w := world0 play noPot in
  let baselines :=
    [@mkBranch (table play) 1 false wantsB; @mkBranch (table play) 2 false wantsX] in
  s_gameState sim < next w /\
  candidates (C := table play) (store w (s_gameState sim)) [] = [] /\
  exists sim' w' evs,
    run play 1 sim w = Some (sim', w') /\
    (forall c,
        branchesOf (s_branches sim') c
        = branchesOf (s_branches sim) c
          ++ filter (fun b => if @cond_same (table play) c (b_condition b)
                              then true else false) baselines) /\
    length (flatBranches (s_branches sim'))
    = length (flatBranches (s_branches sim)) + length (s_conditions sim) /\
    (forall b, In b baselines -> store w' (b_gameState b) = store w 0) /\
    trace w' = trace w ++ evs /\
    evaluatorCalls evs = [evaluate play wantsB [cardA] [cardB];
                          evaluate play wantsX [cardA] [cardB]] /\
    evaluations (trace w') = evaluations (trace w) + length (s_conditions sim) /\
    forall v' c u, In (permute play v' c u) evs ->
      v' = store w 0 /\ u = [] /\ In c (s_conditions sim).
Proof.
  intros sim w baselines. split; [simpl; lia|]. split; [reflexivity|].
  apply (iterate_without_candidates_records_baselines (C := table play) 0 sim w).
  - simpl. lia.
  - reflexivity.
Defined.

Lemma iterate_leaves_baseline_untouched_witness :
  let sim := simOf play [wantsA; wantsX] in
  let w := world0 play cardAndPot in
  s_gameState sim < next w /\
  exists sim' w',
    run play 3 sim w = Some (sim', w') /\
    s_gameState sim' = s_gameState sim /\
    s_conditions sim' = s_conditions sim /\
    store w' (s_gameState sim') = store w (s_gameState sim) /\
    (result sim = true -> result sim' = true).
Proof.
  intros sim w. split; [simpl; lia|].
  eexists _, _. split; [vm_compute; reflexivity|].
  eapply (iterate_leaves_baseline_untouched (C := table play) 3 sim w).
  - simpl. lia.
  - vm_compute. reflexivity.
Defined.

(** Two pots that are only played: the whole simulation returns within
    three nested calls. *)
Lemma runSimulation_returns_witness :
  let w := world0 play twoPots in
  0 < next w /\
  exists sim' w',
    runSimulation (C := table play) 3 0 [wantsA; wantsX] w = Some (sim', w') /\
    s_conditions sim' = [wantsA; wantsX] /\
    (forall c, In c [wantsA; wantsX] -> branchesOf (s_branches sim') c <> []) /\
    store w' 0 = store w 0.
Proof.
  intros w. split; [simpl; lia|].
  apply (runSimulation_returns (C := table play) 0 [wantsA; wantsX] w
           play_brings_no_new_free_card).
  simpl. lia.
Defined.

(** *** Serialisation, further *)

(** The condition decoded for the [conditions] list wants A, as the
    conditions of the two branches do; it keys no branch. *)
Lemma deserialised_conditions_key_no_branch_witness :
  let w := world0 play cardAndPot in
  exists sim w',
    deserialise (C := table play) twoBranchesOneContent w = Some (sim, w') /\
    s_conditions sim = [mkCondition 2 "A"] /\
    forall c, In c (s_conditions sim) ->
      map_get condition_eq_dec (s_branches sim) c = None /\
      branchesOf (s_branches sim) c = [].
Proof.
  intros w. eexists _, _. split; [vm_compute; reflexivity|].
  split; [reflexivity|].
  eapply (deserialised_conditions_key_no_branch (C := table play)
            twoBranchesOneContent w).
  - exact decoded_conditions_differ.
  - vm_compute. reflexivity.
Defined.

Lemma serialise_deserialise_roundtrip_witness :
  let w := world0 play cardAndPot in
  exists sim w',
    deserialise (C := table play) twoBranchesOneContent w = Some (sim, w') /\
    serialise sim w' = Some (twoBranchesOneContent, w').
Proof.
  intros w.
  apply (serialise_deserialise_roundtrip (C := table play) twoBranchesOneContent w).
  - reflexivity.
  - reflexivity.
  - exact decoded_conditions_differ.
Defined.

(** The pot draws card B: the simulation has won, on the branch of the pot. *)
Lemma runSimulation_result_is_sound_witness :
  let w := world0 playAndDraw cardAndPot in
  exists sim' w',
    runSimulation (C := table playAndDraw) 3 0 [wantsB] w = Some (sim', w') /\
    (result sim' = true <->
     exists c b,
       In b (branchesOf (s_branches sim') c) /\ b_condition b = c /\
       holdsWanted c (f_hand (store w' (b_gameState b)))
                   (f_deck (store w' (b_gameState b))) = true).
Proof.
  intros w. eexists _, _. split; [vm_compute; reflexivity|].
  eapply (runSimulation_result_is_sound (C := table playAndDraw) 3 0 [wantsB] w).
  vm_compute. reflexivity.
Defined.

End DuelFacts.
